(** * Pause Timer for YouTube: the content script, embedded and verified

    The content script of the extension keeps one global timer slot
    ([pauseIntervalId]), converts between [h:mm:ss] text and seconds, and
    polls the page's video element until a target time is reached.

    This development embeds those functions and states the properties of
    the specification over them.

    Numbers.  A JavaScript number is modelled as a rational or [NaN].
    The product and the quotient of the percentage, [d * (n / 100)], are
    rounded to the nearest double as the script computes them; remainders,
    [Math.floor] and [Math.round] are exact in JavaScript as they are
    here.  The infinities and the sign of zero are not part of the model,
    and whole numbers are taken as exact, which they are up to 2^53.  The
    values produced by [Math.floor], [Math.round] and by [Number] on digit
    strings are integers (or [NaN]) and carry the type [jsint]. *)

From Stdlib Require Import ZArith QArith Qround Qabs Qpower Lqa Lia.
From Stdlib Require Import Ascii String DecimalString.
From Stdlib Require Import DecimalPos.
From stdpp Require Import base option list gmap.

Local Open Scope Z_scope.

(* ===================================================================== *)
(** ** Regular expressions, as far as the script's pattern needs them *)
(* ===================================================================== *)

Module Regex.

(** [\d] without the unicode flag is exactly the class [0-9]. *)
Definition isDigit (c : ascii) : bool :=
  (48 <=? nat_of_ascii c)%nat && (nat_of_ascii c <=? 57)%nat.

Inductive regex : Type :=
| RNone                      (* matches nothing *)
| REps                       (* the empty string *)
| RDigit                     (* \d *)
| RChar (c : ascii)          (* a literal character *)
| RSeq (r1 r2 : regex)
| RAlt (r1 r2 : regex)
| RStar (r : regex).

(** Derived forms: [r+], [r{n}] and [r{lo,lo+extra}]. *)
Definition rplus (r : regex) : regex := RSeq r (RStar r).

Fixpoint rrep (n : nat) (r : regex) : regex :=
  match n with
  | O => REps
  | S k => RSeq r (rrep k r)
  end.

Fixpoint ropt (extra : nat) (r : regex) : regex :=
  match extra with
  | O => REps
  | S k => RAlt (RSeq r (ropt k r)) REps
  end.

Definition rrange (lo extra : nat) (r : regex) : regex :=
  RSeq (rrep lo r) (ropt extra r).

(** The language of a pattern anchored at both ends ([^...$]). *)
Inductive lang : regex -> list ascii -> Prop :=
| LEps : lang REps []
| LDigit c : isDigit c = true -> lang RDigit [c]
| LChar c : lang (RChar c) [c]
| LSeq r1 r2 s1 s2 : lang r1 s1 -> lang r2 s2 -> lang (RSeq r1 r2) (s1 ++ s2)
| LAltL r1 r2 s : lang r1 s -> lang (RAlt r1 r2) s
| LAltR r1 r2 s : lang r2 s -> lang (RAlt r1 r2) s
| LStarNil r : lang (RStar r) []
| LStarCons r s1 s2 : lang r s1 -> lang (RStar r) s2 -> lang (RStar r) (s1 ++ s2).

(** The executable matcher: Brzozowski derivatives. *)
Fixpoint nullable (r : regex) : bool :=
  match r with
  | RNone => false
  | REps => true
  | RDigit => false
  | RChar _ => false
  | RSeq r1 r2 => nullable r1 && nullable r2
  | RAlt r1 r2 => nullable r1 || nullable r2
  | RStar _ => true
  end.

Fixpoint deriv (c : ascii) (r : regex) : regex :=
  match r with
  | RNone => RNone
  | REps => RNone
  | RDigit => if isDigit c then REps else RNone
  | RChar d => if Ascii.eqb c d then REps else RNone
  | RSeq r1 r2 =>
      if nullable r1
      then RAlt (RSeq (deriv c r1) r2) (deriv c r2)
      else RSeq (deriv c r1) r2
  | RAlt r1 r2 => RAlt (deriv c r1) (deriv c r2)
  | RStar r1 => RSeq (deriv c r1) (RStar r1)
  end.

Fixpoint matchb (r : regex) (s : list ascii) : bool :=
  match s with
  | [] => nullable r
  | c :: s' => matchb (deriv c r) s'
  end.

End Regex.

Import Regex.

(* ===================================================================== *)
(** ** Numbers *)
(* ===================================================================== *)

(** A JavaScript number: an exact rational, or [NaN]. *)
Inductive number : Type :=
| Fin (q : Q)
| NaN.

(** An integer-valued number, or [NaN]. *)
Inductive jsint : Type :=
| IntV (z : Z)
| IntNaN.

Definition ofInt (i : jsint) : number :=
  match i with
  | IntV z => Fin (inject_Z z)
  | IntNaN => NaN
  end.

(** *** Rounding to the nearest double

    A double is [m * 2^e] with [|m| < 2^53] and [e >= -1074].  A rational
    is rounded to the nearest such number, a tie going to the even [m].
    Overflow to an infinity is not modelled; the one product of the script
    has a factor of at most 1. *)

(** [2^e] for an integer exponent. *)
Definition pow2 (e : Z) : Q := Qpower 2 e.

(** The integer part of the binary logarithm of a positive rational. *)
Definition ilog2 (q : Q) : Z :=
  let k := Z.log2 (Qnum q) - Z.log2 (Z.pos (Qden q)) in
  if Qle_bool (pow2 k) q then k else k - 1.

(** The exponent of the grid a number is rounded on: 53 significant bits,
    and the grid of the subnormal numbers below. *)
Definition expo (q : Q) : Z := Z.max (ilog2 (Qabs q) - 52) (-1074).

(** The nearest integer, a tie going to the even one. *)
Definition rne (q : Q) : Z :=
  let f := Qfloor q in
  let r := (q - inject_Z f)%Q in
  if Qle_bool (1 # 2) r
  then if Qle_bool r (1 # 2) then (if Z.even f then f else f + 1) else f + 1
  else f.

Definition nearestOnGrid (x : Q) : Q :=
  (inject_Z (rne (x / pow2 (expo x))) * pow2 (expo x))%Q.

Definition roundDouble (q : Q) : Q :=
  let x := Qred q in
  if Qeq_bool x 0 then 0%Q else Qred (nearestOnGrid x).

(** The rational is a double. *)
Definition isDouble (q : Q) : Prop := (roundDouble q == q)%Q.

(** [a * b], rounded to the nearest double. *)
Definition nmul (a b : number) : number :=
  match a, b with
  | Fin x, Fin y => Fin (roundDouble (x * y))
  | _, _ => NaN
  end.

(** [a / b], rounded to the nearest double: the quotient [n / 100] of the
    percentage.  A zero divisor (an infinity or [NaN] in JavaScript) is
    mapped to [NaN]; the script divides by literals only. *)
Definition fdiv (a b : number) : number :=
  match a, b with
  | Fin x, Fin y => if Qeq_bool y 0 then NaN else Fin (roundDouble (x / y))
  | _, _ => NaN
  end.

(** [a / b] where the script hands the quotient straight to [Math.floor]
    (the divisors 3600 and 60): the exact quotient.  The model takes the
    integer part of the rounded quotient to be that of the exact one;
    the two can differ only for a double that is short of a multiple of
    the divisor by less than the rounding of the quotient.  A zero
    divisor is mapped to [NaN]. *)
Definition ndiv (a b : number) : number :=
  match a, b with
  | Fin x, Fin y => if Qeq_bool y 0 then NaN else Fin (Qred (x / y))
  | _, _ => NaN
  end.

(** Truncation toward zero, used by [%]. *)
Definition Qtrunc (q : Q) : Z :=
  if Qle_bool 0 q then Qfloor q else Qceiling q.

(** [a % b]: the remainder takes the sign of the dividend. *)
Definition nrem (a b : number) : number :=
  match a, b with
  | Fin x, Fin y =>
      if Qeq_bool y 0 then NaN
      else Fin (Qred (x - y * inject_Z (Qtrunc (x / y))))
  | _, _ => NaN
  end.

(** [Math.floor] *)
Definition Math_floor (a : number) : jsint :=
  match a with
  | Fin x => IntV (Qfloor x)
  | NaN => IntNaN
  end.

(** [Math.round]: to the nearest integer, a tie going up. *)
Definition Math_round (a : number) : jsint :=
  match a with
  | Fin x => IntV (Qfloor (x + (1 # 2)))
  | NaN => IntNaN
  end.

(** Comparisons; every comparison with [NaN] is false. *)
Definition nlt (a b : number) : bool :=
  match a, b with
  | Fin x, Fin y => negb (Qle_bool y x)
  | _, _ => false
  end.

Definition ngt (a b : number) : bool := nlt b a.

Definition nge (a b : number) : bool :=
  match a, b with
  | Fin x, Fin y => Qle_bool y x
  | _, _ => false
  end.

Definition isNaN (a : number) : bool :=
  match a with
  | NaN => true
  | Fin _ => false
  end.

(** Integer arithmetic of the timestamp handler, on whole numbers.  The
    products and sums are those of the integers: they are the doubles
    JavaScript computes as long as the values stay within 2^53, the
    range the theorems on timestamps are stated for. *)
Definition imul (a b : jsint) : jsint :=
  match a, b with
  | IntV x, IntV y => IntV (x * y)
  | _, _ => IntNaN
  end.

Definition iadd (a b : jsint) : jsint :=
  match a, b with
  | IntV x, IntV y => IntV (x + y)
  | _, _ => IntNaN
  end.

(** [i > 0] *)
Definition igt0 (i : jsint) : bool :=
  match i with
  | IntV z => 0 <? z
  | IntNaN => false
  end.

(* ===================================================================== *)
(** ** Strings *)
(* ===================================================================== *)

(** Decimal rendering of an integer, as the template literal does it. *)
Definition decimal (z : Z) : string := NilZero.string_of_int (Z.to_int z).

(** [String(n)] for an integer-valued number or [NaN]: every digit of
    the integer.  This is JavaScript's text for the whole numbers up to
    2^53; from 10^21 on JavaScript prints an exponent, which is not
    modelled. *)
Definition toString (i : jsint) : string :=
  match i with
  | IntV z => decimal z
  | IntNaN => "NaN"%string
  end.

(** [fill] repeated and cut to [n] characters. *)
Fixpoint cycle (n : nat) (fill cur : list ascii) : list ascii :=
  match n with
  | O => []
  | S k =>
      match cur with
      | c :: cur' => c :: cycle k fill cur'
      | [] =>
          match fill with
          | c :: cur' => c :: cycle k fill cur'
          | [] => []
          end
      end
  end.

(** [s.padStart(target, fill)] *)
Definition padStart (target : nat) (fill : string) (s : string) : string :=
  let n := String.length s in
  if (target <=? n)%nat then s
  else
    let f := list_ascii_of_string fill in
    String.append (string_of_list_ascii (cycle (target - n) f f)) s.

(** [s.split(sep)] for a one-character separator. *)
Fixpoint split (sep : ascii) (s : list ascii) : list (list ascii) :=
  match s with
  | [] => [[]]
  | c :: s' =>
      if Ascii.eqb c sep then [] :: split sep s'
      else
        match split sep s' with
        | h :: t => (c :: h) :: t
        | [] => [[c]]
        end
  end.

Definition digitValue (c : ascii) : Z := Z.of_nat (nat_of_ascii c) - 48.

(** The value of a string of decimal digits. *)
Definition decimalValue (s : list ascii) : Z :=
  fold_left (fun acc c => 10 * acc + digitValue c) s 0.

(** [Number(s)] on the strings the script passes to it: a string of
    decimal digits has its decimal value and the empty string is 0.  The
    other numeric literals of JavaScript (signs, white space, fractions,
    exponents, radix prefixes) do not pass [isValidHMSFormat] and are not
    modelled: every other string is mapped to [NaN].  The value is the
    integer the digits write; it is the double JavaScript returns when
    it is at most 2^53, and the rounding of longer numerals (and
    [Infinity] from about 309 digits on) is not modelled. *)
Definition Number (s : list ascii) : jsint :=
  if forallb isDigit s then IntV (decimalValue s) else IntNaN.

(* ===================================================================== *)
(** ** Timestamp and percentage helpers of the script *)
(* ===================================================================== *)

Definition colon : ascii := ":"%char.

(** [/^(\d+:\d{2}:\d{2}|\d{1,2}:\d{2})$/] *)
Definition hmsRegex : regex :=
  RAlt
    (RSeq (rplus RDigit)
       (RSeq (RChar colon)
          (RSeq (rrep 2 RDigit) (RSeq (RChar colon) (rrep 2 RDigit)))))
    (RSeq (rrange 1 1 RDigit) (RSeq (RChar colon) (rrep 2 RDigit))).

(** A text is a string of bytes here; a character outside ASCII is
    neither a digit nor a colon in either reading. *)
Definition isValidHMSFormat (input : string) : bool :=
  matchb hmsRegex (list_ascii_of_string input).

(** [while (parts.length < 3) parts.unshift(0)] *)
Definition unshiftZeros (parts : list jsint) : list jsint :=
  repeat (IntV 0) (3 - length parts) ++ parts.

Definition timestampToArray (timestamp : string) : list jsint :=
  let parts := map Number (split colon (list_ascii_of_string timestamp)) in
  unshiftZeros parts.

Definition sep : string := ":"%string.

Definition arrayToTimestamp (timeArray : list jsint) : string :=
  match unshiftZeros timeArray with
  | hours :: minutes :: seconds :: _ =>
      if igt0 hours
      then (toString hours ++ sep ++ padStart 2 "0" (toString minutes)
              ++ sep ++ padStart 2 "0" (toString seconds))%string
      else (toString minutes ++ sep ++ padStart 2 "0" (toString seconds))%string
  | _ => EmptyString
  end.

Definition percentageOfTimestamp (totalSeconds n : number) : string :=
  if nlt n (Fin 0) || ngt n (Fin 100) then "number not valid"%string
  else
    let dividedSeconds := nmul totalSeconds (fdiv n (Fin 100)) in
    let newHours := Math_floor (ndiv dividedSeconds (Fin 3600)) in
    let remainderAfterHours := nrem dividedSeconds (Fin 3600) in
    let newMinutes := Math_floor (ndiv remainderAfterHours (Fin 60)) in
    let newSeconds := Math_round (nrem remainderAfterHours (Fin 60)) in
    arrayToTimestamp [newHours; newMinutes; newSeconds].

(** The formatting of a duration at the end of [attachPanelListeners]. *)
Definition durationToTimestamp (totalSeconds : number) : string :=
  let hours := Math_floor (ndiv totalSeconds (Fin 3600)) in
  let minutes := Math_floor (ndiv (nrem totalSeconds (Fin 3600)) (Fin 60)) in
  let seconds := Math_round (nrem totalSeconds (Fin 60)) in
  arrayToTimestamp [hours; minutes; seconds].

(** [parts[0] * 3600 + parts[1] * 60 + parts[2]] of the timestamp handler. *)
Definition totalSecondsOf (parts : list jsint) : jsint :=
  iadd (iadd (imul (nth 0 parts IntNaN) (IntV 3600))
             (imul (nth 1 parts IntNaN) (IntV 60)))
       (nth 2 parts IntNaN).

(** What the timestamp handler hands to the scheduler: [None] when the
    text fails [isValidHMSFormat]. *)
Definition timestampTarget (timestamp : string) : option jsint :=
  if isValidHMSFormat timestamp
  then Some (totalSecondsOf (timestampToArray timestamp))
  else None.

(* ===================================================================== *)
(** ** The page, the timer slot and the panel *)
(* ===================================================================== *)

(** The fields of an [HTMLVideoElement] the script reads or changes. *)
Record VideoElement : Type := mkVideo {
  currentTime : number;
  duration : number;
  paused : bool
}.

(** The closure handed to [setInterval]: it captures the element found
    when the timer was started, and the target. *)
Record Callback : Type := mkCallback {
  cbVideo : nat;
  cbTarget : number
}.

(** Lines written with [console.log] and [console.error]. *)
Inductive LogEntry : Type :=
| LogTimerStopped
| ErrNoVideo
| LogSettingTimer (target : number)
| LogVideoPaused (at_ : number)
| LogPanelExists
| ErrInvalidTimestamp
| ErrInvalidPercentage.

(** The floating panel; of its inputs only the timestamp field is kept. *)
Record Panel : Type := mkPanel {
  timestampInput : string
}.

(** One call of [video.pause()], with the callback that issued it. *)
Record PauseCall : Type := mkPauseCall {
  pcTimer : nat;
  pcVideo : nat;
  pcTarget : number
}.

Record World : Type := mkWorld {
  pauseIntervalId : option nat;        (* the global slot *)
  intervals : gmap nat Callback;       (* the interval timers still active *)
  nextTimer : nat;                     (* the next id [setInterval] returns *)
  videos : gmap nat VideoElement;      (* the video elements, by reference *)
  docVideo : option nat;               (* document.querySelector('video') *)
  panel : option Panel;                (* document.getElementById(panelId) *)
  isPanelVisible : option bool;        (* chrome.storage.local *)
  console : list LogEntry;             (* newest entry first *)
  pauseCalls : list PauseCall          (* newest call first *)
}.

Definition setSlot (s : option nat) (iv : gmap nat Callback) (w : World) : World :=
  mkWorld s iv (nextTimer w) (videos w) (docVideo w) (panel w)
          (isPanelVisible w) (console w) (pauseCalls w).

Definition setNextTimer (n : nat) (w : World) : World :=
  mkWorld (pauseIntervalId w) (intervals w) n (videos w) (docVideo w) (panel w)
          (isPanelVisible w) (console w) (pauseCalls w).

Definition setVideos (vs : gmap nat VideoElement) (w : World) : World :=
  mkWorld (pauseIntervalId w) (intervals w) (nextTimer w) vs (docVideo w) (panel w)
          (isPanelVisible w) (console w) (pauseCalls w).

Definition setDocVideo (d : option nat) (w : World) : World :=
  mkWorld (pauseIntervalId w) (intervals w) (nextTimer w) (videos w) d (panel w)
          (isPanelVisible w) (console w) (pauseCalls w).

Definition setPanel (p : option Panel) (w : World) : World :=
  mkWorld (pauseIntervalId w) (intervals w) (nextTimer w) (videos w) (docVideo w) p
          (isPanelVisible w) (console w) (pauseCalls w).

Definition setStorage (b : bool) (w : World) : World :=
  mkWorld (pauseIntervalId w) (intervals w) (nextTimer w) (videos w) (docVideo w)
          (panel w) (Some b) (console w) (pauseCalls w).

Definition logLine (e : LogEntry) (w : World) : World :=
  mkWorld (pauseIntervalId w) (intervals w) (nextTimer w) (videos w) (docVideo w)
          (panel w) (isPanelVisible w) (e :: console w) (pauseCalls w).

Definition recordPause (c : PauseCall) (w : World) : World :=
  mkWorld (pauseIntervalId w) (intervals w) (nextTimer w) (videos w) (docVideo w)
          (panel w) (isPanelVisible w) (console w) (c :: pauseCalls w).

(** The state of the script when it has just been loaded. *)
Definition initial (vs : gmap nat VideoElement) (d : option nat)
    (stored : option bool) : World :=
  mkWorld None ∅ 1 vs d None stored [] [].

(** [findVideo()], and the element behind the reference. *)
Definition findVideo (w : World) : option nat := docVideo w.

Definition stopPauseTimer (w : World) : World :=
  match pauseIntervalId w with
  | Some id =>
      logLine LogTimerStopped (setSlot None (delete id (intervals w)) w)
  | None => w
  end.

Definition startPauseTimer (targetTime : number) (w : World) : World :=
  let w1 := stopPauseTimer w in
  match findVideo w1 with
  | None => logLine ErrNoVideo w1
  | Some video =>
      let w2 := logLine (LogSettingTimer targetTime) w1 in
      let id := nextTimer w2 in
      setNextTimer (S id)
        (setSlot (Some id) (<[id := mkCallback video targetTime]> (intervals w2)) w2)
  end.

(** [video.pause()] *)
Definition pauseVideo (video : nat) (w : World) : World :=
  setVideos (alter (fun v => mkVideo (currentTime v) (duration v) true) video (videos w)) w.

(** The body of the interval callback. *)
Definition callback (id : nat) (cb : Callback) (w : World) : World :=
  match videos w !! cbVideo cb with
  | Some v =>
      if nge (currentTime v) (cbTarget cb)
      then
        let w1 := recordPause (mkPauseCall id (cbVideo cb) (cbTarget cb))
                    (pauseVideo (cbVideo cb) w) in
        let w2 := stopPauseTimer w1 in
        logLine (LogVideoPaused (currentTime v)) w2
      else w
  | None => w
  end.

(** The browser fires timer [id]: a timer that was cleared never fires. *)
Definition tick (id : nat) (w : World) : World :=
  match intervals w !! id with
  | Some cb => callback id cb w
  | None => w
  end.

Definition attachPanelListeners (w : World) : World :=
  match panel w with
  | None => w
  | Some _ =>
      match findVideo w with
      | Some video =>
          match videos w !! video with
          | Some v =>
              setPanel (Some (mkPanel (durationToTimestamp (duration v)))) w
          | None => w
          end
      | None => w
      end
  end.

Definition injectPanel (w : World) : World :=
  match panel w with
  | Some _ => logLine LogPanelExists w
  | None => attachPanelListeners (setPanel (Some (mkPanel EmptyString)) w)
  end.

(** The listener of [chrome.runtime.onMessage] for [togglePanel]. *)
Definition togglePanel (w : World) : World :=
  match panel w with
  | Some _ => setStorage false (setPanel None w)
  | None => setStorage true (injectPanel w)
  end.

(** The click handlers that [attachPanelListeners] installs. *)
Definition clickChosenTimestamp (w : World) : World :=
  match panel w with
  | None => w
  | Some p =>
      match timestampTarget (timestampInput p) with
      | None => logLine ErrInvalidTimestamp w
      | Some totalSeconds => startPauseTimer (ofInt totalSeconds) w
      end
  end.

(** [percentage] is the value [parseFloat] read from the number input. *)
Definition clickPartition (percentage : number) (w : World) : World :=
  match panel w with
  | None => w
  | Some _ =>
      if isNaN percentage || nlt percentage (Fin 0) || ngt percentage (Fin 100)
      then logLine ErrInvalidPercentage w
      else
        match findVideo w with
        | Some video =>
            match videos w !! video with
            | Some v =>
                let seekTime := nmul (duration v) (fdiv percentage (Fin 100)) in
                startPauseTimer seekTime w
            | None => w
            end
        | None => w
        end
  end.

Definition clickClose (w : World) : World :=
  match panel w with
  | None => w
  | Some _ => setStorage false (setPanel None w)
  end.

(** The callback of [chrome.storage.local.get] at load time. *)
Definition onStorageRead (w : World) : World :=
  match isPanelVisible w with
  | Some true => injectPanel w
  | _ => w
  end.

(** Events of the page. *)
Inductive event : Type :=
| EvTick (id : nat)                            (* an interval timer fires *)
| EvSeek (video : nat) (position : number)     (* playback advances or seeks *)
| EvPlay (video : nat)                         (* the user resumes playback *)
| EvDocument (d : option nat)                  (* the page swaps its video *)
| EvTypeTimestamp (text : string)              (* the user edits the field *)
| EvSchedule (target : number)                 (* startPauseTimer *)
| EvCancel                                     (* stopPauseTimer *)
| EvToggle
| EvClickTimestamp
| EvClickPartition (percentage : number)
| EvClickClose
| EvStorageRead.

Definition step (e : event) (w : World) : World :=
  match e with
  | EvTick id => tick id w
  | EvSeek video t =>
      setVideos (alter (fun v => mkVideo t (duration v) (paused v)) video (videos w)) w
  | EvPlay video =>
      setVideos
        (alter (fun v => mkVideo (currentTime v) (duration v) false) video (videos w)) w
  | EvDocument d => setDocVideo d w
  | EvTypeTimestamp text =>
      match panel w with
      | Some _ => setPanel (Some (mkPanel text)) w
      | None => w
      end
  | EvSchedule t => startPauseTimer t w
  | EvCancel => stopPauseTimer w
  | EvToggle => togglePanel w
  | EvClickTimestamp => clickChosenTimestamp w
  | EvClickPartition p => clickPartition p w
  | EvClickClose => clickClose w
  | EvStorageRead => onStorageRead w
  end.

(** Events in the order they happen. *)
Definition run (es : list event) (w : World) : World :=
  fold_left (fun w e => step e w) es w.

(** No event of the list calls into the scheduler from outside a timer:
    only ticks and changes of the page. *)
Definition passive (e : event) : bool :=
  match e with
  | EvTick _ | EvSeek _ _ | EvPlay _ | EvDocument _ | EvTypeTimestamp _ => true
  | _ => false
  end.

(** The timer slot and the browser's timer table agree. *)
Definition slotAgrees (w : World) : Prop :=
  match pauseIntervalId w with
  | None => intervals w = ∅
  | Some id => exists cb, intervals w = {[ id := cb ]}
  end.

(** The two states of the scheduler. *)
Definition Idle (w : World) : Prop := pauseIntervalId w = None /\ intervals w = ∅.

Definition Armed (target : number) (w : World) : Prop :=
  exists id video,
    pauseIntervalId w = Some id /\ intervals w = {[ id := mkCallback video target ]}.

(** The states the script can be in: any events after it was loaded. *)
Definition reachable (w : World) : Prop :=
  exists vs d stored es, w = run es (initial vs d stored).

(** The panel is in the page exactly when the stored flag says so. *)
Definition panelPresent (w : World) : bool :=
  match panel w with
  | Some _ => true
  | None => false
  end.

Definition inLockstep (w : World) : Prop :=
  isPanelVisible w = Some (panelPresent w).

(** A page with one video, ten seconds into ten minutes, the script just
    loaded. *)
Definition sampleVideo : VideoElement := mkVideo (Fin 10) (Fin 600) false.

Definition samplePage : World := initial {[ 7%nat := sampleVideo ]} (Some 7%nat) None.

(* ===================================================================== *)
(** ** The two shapes of a timestamp, in the words of the specification *)
(* ===================================================================== *)

Definition allDigits (s : list ascii) : Prop := Forall (fun c => isDigit c = true) s.

(** [H:MM:SS]: one or more hour digits, two minute digits, two second
    digits. *)
Definition shapeHMS (s : list ascii) : Prop :=
  exists h m sec : list ascii,
    s = h ++ colon :: (m ++ colon :: sec) /\
    allDigits h /\ h <> [] /\
    allDigits m /\ length m = 2%nat /\
    allDigits sec /\ length sec = 2%nat.

(** [M:SS] or [MM:SS]: one or two minute digits, two second digits. *)
Definition shapeMS (s : list ascii) : Prop :=
  exists m sec : list ascii,
    s = m ++ colon :: sec /\
    allDigits m /\ (length m = 1%nat \/ length m = 2%nat) /\
    allDigits sec /\ length sec = 2%nat.

(* ===================================================================== *)
(** ** Formatting a duration, in the words of the specification *)
(* ===================================================================== *)

(** [s mod d] on the reals. *)
Definition qmod (s d : Q) : Q := (s - d * inject_Z (Qfloor (s / d)))%Q.

(** Rounding to the nearest integer, a tie going away from zero. *)
Definition roundHalfAway (x : Q) : Z :=
  if Qle_bool 0 x then Qfloor (x + (1 # 2)) else Qceiling (x - (1 # 2)).

Definition specHours (s : Q) : Z := Qfloor (s / 3600).
Definition specMinutes (s : Q) : Z := Qfloor (qmod s 3600 / 60).
Definition specSeconds (s : Q) : Z := roundHalfAway (qmod s 60).

(** A field padded with a zero to two digits. *)
Definition twoDigits (z : Z) : string :=
  if z <? 10 then String "0" (decimal z) else decimal z.

(** [H:MM:SS] when there are hours, [M:SS] otherwise; no field is
    carried into the next. *)
Definition renderTimestamp (h m sec : Z) : string :=
  if 0 <? h
  then (decimal h ++ sep ++ twoDigits m ++ sep ++ twoDigits sec)%string
  else (decimal m ++ sep ++ twoDigits sec)%string.

(** The total of a timestamp: [hours*3600 + minutes*60 + seconds]. *)
Definition toTotalSeconds (h m sec : Z) : Z := h * 3600 + m * 60 + sec.

Definition digitChars : list ascii := list_ascii_of_string "0123456789".

(** A number of the model that stands for the rational [q]. *)
Definition denotes (a : number) (q : Q) : Prop :=
  exists x, a = Fin x /\ (x == q)%Q.

(** Division by the literals of the script, written as a product. *)
Ltac qconst :=
  unfold Qdiv in *;
  change (/ 3600)%Q with (1 # 3600)%Q in *;
  change (/ 60)%Q with (1 # 60)%Q in *;
  change (/ 100)%Q with (1 # 100)%Q in *.


(** The digits of an unsigned decimal numeral, as characters. *)
Definition uintChars (d : Decimal.uint) : list ascii :=
  list_ascii_of_string (NilEmpty.string_of_uint d).

(** Events that only concern the panel and its stored flag. *)
Definition panelOnly (e : event) : bool :=
  match e with
  | EvToggle | EvClickClose | EvStorageRead | EvTypeTimestamp _ => true
  | _ => false
  end.

(** A seek, the one event that moves a playback position. *)
Definition seeks (e : event) : bool :=
  match e with
  | EvSeek _ _ => true
  | _ => false
  end.

(** The user resuming playback. *)
Definition resumes (e : event) : bool :=
  match e with
  | EvPlay _ => true
  | _ => false
  end.

(** A seek of the event, if it is one, stays short of [t]. *)
Definition keepsBelow (t : number) (e : event) : bool :=
  match e with
  | EvSeek _ position => negb (nge position t)
  | _ => true
  end.

(** No video of the page has reached [t]. *)
Definition belowTarget (t : number) (w : World) : Prop :=
  forall id v, videos w !! id = Some v -> nge (currentTime v) t = false.

(** The listener of [chrome.runtime.onMessage]; a message is given by
    its [action]. *)
Definition onMessage (action : string) (w : World) : World :=
  if String.eqb action "togglePanel" then togglePanel w else w.

(** The popup.  A tab as [chrome.tabs.query] reports it, with its URL. *)
Record Tab : Type := mkTab {
  tabId : nat;
  tabUrl : string
}.

(** What [sendMessageToContentScript] does: it hands the message to
    [chrome.tabs.sendMessage] for a tab, or writes the error to the
    console and answers with the error object. *)
Inductive SendResult : Type :=
| Delivered (tab : nat) (action : string)
| NotYouTube.

Definition youtubePrefix : string := "https://www.youtube.com/".

(** [tabs] is the answer to the query for the active tab of the current
    window; [const [tab] = ...] takes its first element. *)
Definition sendMessageToContentScript (tabs : list Tab) (action : string)
    : SendResult :=
  match tabs with
  | tab :: _ =>
      if String.prefix youtubePrefix (tabUrl tab)
      then Delivered (tabId tab) action
      else NotYouTube
  | [] => NotYouTube
  end.

(** [chrome.storage.local] is one store of the extension, not of a page:
    the [isPanelVisible] of a page is what the store holds, and a value
    one page writes is the value of every page. *)
Definition withStorage (flag : option bool) (w : World) : World :=
  mkWorld (pauseIntervalId w) (intervals w) (nextTimer w) (videos w) (docVideo w)
          (panel w) flag (console w) (pauseCalls w).

(** The popup was opened: its [DOMContentLoaded] handler sends
    [togglePanel]; [pages] are the content scripts, by tab.  The page of
    the tab handles the message, and what it leaves in the store is what
    every page finds there.  A tab without a content script fails the
    delivery and nothing changes. *)
Definition popupOpened (tabs : list Tab) (pages : gmap nat World)
    : gmap nat World :=
  match sendMessageToContentScript tabs "togglePanel" with
  | Delivered tab action =>
      match pages !! tab with
      | Some w =>
          let w' := onMessage action w in
          withStorage (isPanelVisible w') <$> <[tab := w']> pages
      | None => pages
      end
  | NotYouTube => pages
  end.

(** The page is loaded again: the script starts afresh on the videos the
    new document has, the stored flag is what the old page left, and the
    answer of [chrome.storage.local.get] arrives. *)
Definition reload (vs : gmap nat VideoElement) (d : option nat) (w : World)
    : World :=
  onStorageRead (initial vs d (isPanelVisible w)).

(** A video whose metadata is not loaded: its duration is [NaN]. *)
Definition unloadedVideo : VideoElement := mkVideo (Fin 0) NaN true.

(** A video of 100.6 seconds. *)
Definition fractionalVideo : VideoElement := mkVideo (Fin 0) (Fin 100.6) false.

Definition fractionalPage : World :=
  initial {[ 3%nat := fractionalVideo ]} (Some 3%nat) None.

(** The sample page with the panel open. *)
Definition panelPage : World := togglePanel samplePage.

(* ===================================================================== *)
(** ** The scheduler: one slot, one timer *)
(* ===================================================================== *)

Section Scheduler.

Implicit Types (w : World) (t : number) (es : list event).

Lemma stopPauseTimer_slot w : pauseIntervalId (stopPauseTimer w) = None.
Proof. unfold stopPauseTimer. destruct (pauseIntervalId w) eqn:E; [reflexivity | exact E]. Qed.

Lemma stopPauseTimer_frame w :
  videos (stopPauseTimer w) = videos w /\
  docVideo (stopPauseTimer w) = docVideo w /\
  panel (stopPauseTimer w) = panel w /\
  isPanelVisible (stopPauseTimer w) = isPanelVisible w /\
  pauseCalls (stopPauseTimer w) = pauseCalls w /\
  nextTimer (stopPauseTimer w) = nextTimer w.
Proof. unfold stopPauseTimer. destruct (pauseIntervalId w); repeat split; reflexivity. Qed.

Lemma stopPauseTimer_intervals w :
  slotAgrees w -> intervals (stopPauseTimer w) = ∅.
Proof.
  unfold slotAgrees, stopPauseTimer.
  destruct (pauseIntervalId w) as [id|]; [| auto].
  intros [cb ->]. simpl. apply delete_singleton_eq.
Qed.

Lemma stopPauseTimer_Idle w : slotAgrees w -> Idle (stopPauseTimer w).
Proof.
  intros H. split; [apply stopPauseTimer_slot | by apply stopPauseTimer_intervals].
Qed.

Lemma Idle_slotAgrees w : Idle w -> slotAgrees w.
Proof. intros [H1 H2]. unfold slotAgrees. by rewrite H1. Qed.

Lemma Armed_slotAgrees t w : Armed t w -> slotAgrees w.
Proof. intros (id & v & H1 & H2). unfold slotAgrees. rewrite H1. eauto. Qed.

Lemma startPauseTimer_absent t w :
  findVideo w = None ->
  startPauseTimer t w = logLine ErrNoVideo (stopPauseTimer w).
Proof.
  intros H. unfold startPauseTimer, findVideo in *.
  destruct (stopPauseTimer_frame w) as (_ & -> & _). by rewrite H.
Qed.

Lemma startPauseTimer_present t w video :
  slotAgrees w -> findVideo w = Some video ->
  pauseIntervalId (startPauseTimer t w) = Some (nextTimer w) /\
  intervals (startPauseTimer t w) = {[ nextTimer w := mkCallback video t ]} /\
  pauseCalls (startPauseTimer t w) = pauseCalls w /\
  videos (startPauseTimer t w) = videos w /\
  docVideo (startPauseTimer t w) = docVideo w.
Proof.
  intros Hs Hv. unfold startPauseTimer, findVideo in *.
  destruct (stopPauseTimer_frame w) as (Hvs & Hd & _ & _ & Hp & Hn).
  rewrite Hd, Hv. simpl.
  rewrite (stopPauseTimer_intervals w Hs), Hn, Hp, Hvs, Hd.
  repeat split; try reflexivity. exact Hv.
Qed.

Lemma startPauseTimer_Armed t w video :
  slotAgrees w -> findVideo w = Some video -> Armed t (startPauseTimer t w).
Proof.
  intros Hs Hv. destruct (startPauseTimer_present t w video Hs Hv) as (H1 & H2 & _).
  exists (nextTimer w), video. auto.
Qed.

Lemma startPauseTimer_slotAgrees t w : slotAgrees w -> slotAgrees (startPauseTimer t w).
Proof.
  intros Hs. destruct (findVideo w) as [video|] eqn:Hv.
  - eapply Armed_slotAgrees, startPauseTimer_Armed; eauto.
  - rewrite startPauseTimer_absent by done.
    apply Idle_slotAgrees. destruct (stopPauseTimer_Idle w Hs). by split.
Qed.

Lemma startPauseTimer_pauseCalls t w : pauseCalls (startPauseTimer t w) = pauseCalls w.
Proof.
  unfold startPauseTimer.
  destruct (stopPauseTimer_frame w) as (_ & _ & _ & _ & Hp & _).
  destruct (findVideo (stopPauseTimer w)); simpl; exact Hp.
Qed.

(** What a tick does to a state whose slot holds the only timer. *)
Lemma tick_fires w id cb v :
  pauseIntervalId w = Some id -> intervals w = {[ id := cb ]} ->
  videos w !! cbVideo cb = Some v ->
  nge (currentTime v) (cbTarget cb) = true ->
  pauseCalls (tick id w) = mkPauseCall id (cbVideo cb) (cbTarget cb) :: pauseCalls w /\
  Idle (tick id w) /\
  videos (tick id w) !! cbVideo cb = Some (mkVideo (currentTime v) (duration v) true).
Proof.
  intros Hs Hi Hv Hge. unfold tick. rewrite Hi, lookup_singleton_eq.
  unfold callback. rewrite Hv, Hge.
  unfold stopPauseTimer. simpl. rewrite Hs. simpl. rewrite Hi.
  repeat split; try reflexivity.
  - apply delete_singleton_eq.
  - by rewrite lookup_alter_eq, Hv.
Qed.

Lemma tick_waits w id cb v :
  intervals w = {[ id := cb ]} ->
  videos w !! cbVideo cb = Some v ->
  nge (currentTime v) (cbTarget cb) = false ->
  tick id w = w.
Proof.
  intros Hi Hv Hge. unfold tick. rewrite Hi, lookup_singleton_eq.
  unfold callback. by rewrite Hv, Hge.
Qed.

Lemma tick_other w id : intervals w !! id = None -> tick id w = w.
Proof. intros H. unfold tick. by rewrite H. Qed.

Lemma tick_slotAgrees id w : slotAgrees w -> slotAgrees (tick id w).
Proof.
  intros Hs. unfold tick. destruct (intervals w !! id) as [cb|] eqn:E; [| done].
  unfold callback. destruct (videos w !! cbVideo cb) as [v|]; [| done].
  destruct (nge _ _); [| done].
  apply Idle_slotAgrees. split.
  - simpl. apply stopPauseTimer_slot.
  - simpl. apply stopPauseTimer_intervals. exact Hs.
Qed.

(** Passive events leave an idle scheduler idle and issue no pause. *)
Lemma passive_Idle e w :
  passive e = true -> Idle w -> Idle (step e w) /\ pauseCalls (step e w) = pauseCalls w.
Proof.
  intros Hp [H1 H2]. destruct e; try discriminate; simpl.
  - rewrite tick_other; [done |]. by rewrite H2.
  - done.
  - done.
  - done.
  - destruct (panel w); done.
Qed.

Lemma passive_run_Idle es w :
  forallb passive es = true -> Idle w ->
  Idle (run es w) /\ pauseCalls (run es w) = pauseCalls w.
Proof.
  revert w. induction es as [|e es IH]; intros w Hp Hi; [done |].
  simpl in Hp. apply andb_prop in Hp as [He Hes].
  destruct (passive_Idle e w He Hi) as [Hi' Hc].
  destruct (IH (step e w) Hes Hi') as [Hi'' Hc'].
  simpl. split; [done | congruence].
Qed.

(** While armed for [t], a passive event keeps the scheduler armed for
    [t] or makes it idle, and a pause it issues carries the target [t]. *)
Lemma passive_Armed e t w :
  passive e = true -> Armed t w ->
  (Armed t (step e w) /\ pauseCalls (step e w) = pauseCalls w) \/
  (Idle (step e w) /\
   exists id video, pauseCalls (step e w) = mkPauseCall id video t :: pauseCalls w).
Proof.
  intros Hp (id & video & Hs & Hi).
  assert (Ha : Armed t w) by (exists id, video; done).
  destruct e; try discriminate; simpl.
  - destruct (decide (id0 = id)) as [-> |Hne].
    + unfold tick. rewrite Hi, lookup_singleton_eq.
      unfold callback. simpl.
      destruct (videos w !! video) as [v|] eqn:Hv; [| by left].
      destruct (nge (currentTime v) t) eqn:Hge; [| by left].
      right. split.
      * split; simpl; [apply stopPauseTimer_slot |].
        apply stopPauseTimer_intervals. unfold slotAgrees. simpl. rewrite Hs. eauto.
      * exists id, video. unfold stopPauseTimer. simpl. by rewrite Hs.
    + rewrite tick_other; [by left |]. rewrite Hi. by apply lookup_singleton_ne.
  - left. split; [| done]. by exists id, video.
  - left. split; [| done]. by exists id, video.
  - left. split; [| done]. by exists id, video.
  - left. destruct (panel w); (split; [| done]); by exists id, video.
Qed.

Lemma passive_run_Armed es t w :
  forallb passive es = true -> Armed t w ->
  exists new, pauseCalls (run es w) = new ++ pauseCalls w /\
              Forall (fun pc => pcTarget pc = t) new /\
              (length new <= 1)%nat /\
              (Armed t (run es w) \/ Idle (run es w)).
Proof.
  revert w. induction es as [|e es IH]; intros w Hp Ha.
  - exists []. simpl. repeat split; auto.
  - simpl in Hp. apply andb_prop in Hp as [He Hes]. simpl.
    destruct (passive_Armed e t w He Ha) as [[Ha' Hc] | [Hi' (id & video & Hc)]].
    + destruct (IH (step e w) Hes Ha') as (new & Hn & Hf & Hl & Hst).
      exists new. rewrite <- Hc. auto.
    + destruct (passive_run_Idle es (step e w) Hes Hi') as [Hi'' Hc'].
      exists [mkPauseCall id video t]. repeat split.
      * rewrite Hc', Hc. reflexivity.
      * by constructor.
      * simpl. lia.
      * by right.
Qed.

End Scheduler.

Section Invariant.

Implicit Types (w : World) (t : number) (es : list event).

Lemma slotAgrees_ext w w' :
  pauseIntervalId w' = pauseIntervalId w -> intervals w' = intervals w ->
  slotAgrees w -> slotAgrees w'.
Proof. unfold slotAgrees. intros -> ->. auto. Qed.

Lemma attachPanelListeners_frame w :
  pauseIntervalId (attachPanelListeners w) = pauseIntervalId w /\
  intervals (attachPanelListeners w) = intervals w /\
  isPanelVisible (attachPanelListeners w) = isPanelVisible w /\
  (is_Some (panel w) -> is_Some (panel (attachPanelListeners w))).
Proof.
  unfold attachPanelListeners.
  destruct (panel w) eqn:Ep; [| rewrite Ep; by repeat split].
  destruct (findVideo w) as [video|]; [| rewrite Ep; by repeat split].
  destruct (videos w !! video); [| rewrite Ep; by repeat split].
  simpl. repeat split; eauto.
Qed.

Lemma injectPanel_frame w :
  pauseIntervalId (injectPanel w) = pauseIntervalId w /\
  intervals (injectPanel w) = intervals w /\
  isPanelVisible (injectPanel w) = isPanelVisible w /\
  is_Some (panel (injectPanel w)).
Proof.
  unfold injectPanel. destruct (panel w) eqn:Ep.
  - simpl. rewrite Ep. repeat split; eauto.
  - pose proof (attachPanelListeners_frame (setPanel (Some (mkPanel EmptyString)) w))
      as (H1 & H2 & H3 & H4).
    rewrite H1, H2, H3. repeat split. apply H4. simpl. eauto.
Qed.

Lemma step_slotAgrees e w : slotAgrees w -> slotAgrees (step e w).
Proof.
  intros Hs. destruct e; simpl.
  - by apply tick_slotAgrees.
  - exact Hs.
  - exact Hs.
  - exact Hs.
  - destruct (panel w); exact Hs.
  - by apply startPauseTimer_slotAgrees.
  - by apply Idle_slotAgrees, stopPauseTimer_Idle.
  - unfold togglePanel. destruct (panel w); [exact Hs |].
    destruct (injectPanel_frame w) as (H1 & H2 & _).
    eapply slotAgrees_ext; [| | exact Hs]; simpl; assumption.
  - unfold clickChosenTimestamp. destruct (panel w) as [p|]; [| exact Hs].
    destruct (timestampTarget (timestampInput p)); [| exact Hs].
    by apply startPauseTimer_slotAgrees.
  - unfold clickPartition. destruct (panel w); [| exact Hs].
    destruct (_ || _); [exact Hs |].
    destruct (findVideo w) as [video|]; [| exact Hs].
    destruct (videos w !! video); [| exact Hs].
    by apply startPauseTimer_slotAgrees.
  - unfold clickClose. destruct (panel w); exact Hs.
  - unfold onStorageRead. destruct (isPanelVisible w) as [[|]|]; try exact Hs.
    destruct (injectPanel_frame w) as (H1 & H2 & _).
    eapply slotAgrees_ext; [| | exact Hs]; assumption.
Qed.

Lemma run_slotAgrees es w : slotAgrees w -> slotAgrees (run es w).
Proof.
  revert w. induction es as [|e es IH]; intros w Hs; [exact Hs |].
  simpl. apply IH. by apply step_slotAgrees.
Qed.

(** Every state the script can reach keeps the slot and the timer table
    in agreement. *)
Lemma reachable_slotAgrees w : reachable w -> slotAgrees w.
Proof.
  intros (vs & d & st & es & ->). apply run_slotAgrees. reflexivity.
Qed.

Lemma nge_NaN x : nge x NaN = false.
Proof. by destruct x. Qed.

(** [>=] on two rationals is the order of the rationals. *)
Lemma nge_spec (x y : Q) : nge (Fin x) (Fin y) = true <-> (y <= x)%Q.
Proof. apply Qle_bool_iff. Qed.

Lemma passive_Armed_never e t w :
  (forall x, nge x t = false) -> passive e = true -> Armed t w ->
  Armed t (step e w) /\ pauseCalls (step e w) = pauseCalls w.
Proof.
  intros Hn Hp Ha.
  destruct (passive_Armed e t w Hp Ha) as [H | [_ (id & video & Hc)]]; [exact H |].
  exfalso. destruct Ha as (id' & video' & Hs & Hi).
  destruct e; try discriminate; simpl in Hc.
  - unfold tick in Hc. rewrite Hi in Hc.
    destruct (decide (id0 = id')) as [-> | Hne].
    + rewrite lookup_singleton_eq in Hc. unfold callback in Hc. simpl in Hc.
      destruct (videos w !! video') as [v|].
      * rewrite Hn in Hc. by apply (f_equal length) in Hc; simpl in Hc; lia.
      * by apply (f_equal length) in Hc; simpl in Hc; lia.
    + rewrite lookup_singleton_ne in Hc by done.
      by apply (f_equal length) in Hc; simpl in Hc; lia.
  - by apply (f_equal length) in Hc; simpl in Hc; lia.
  - by apply (f_equal length) in Hc; simpl in Hc; lia.
  - by apply (f_equal length) in Hc; simpl in Hc; lia.
  - destruct (panel w); by apply (f_equal length) in Hc; simpl in Hc; lia.
Qed.

Lemma passive_run_Armed_never es t w :
  (forall x, nge x t = false) -> forallb passive es = true -> Armed t w ->
  Armed t (run es w) /\ pauseCalls (run es w) = pauseCalls w.
Proof.
  intros Hn. revert w. induction es as [|e es IH]; intros w Hp Ha; [done |].
  simpl in Hp. apply andb_prop in Hp as [He Hes].
  destruct (passive_Armed_never e t w Hn He Ha) as [Ha' Hc].
  destruct (IH (step e w) Hes Ha') as [Ha'' Hc'].
  simpl. split; [done | congruence].
Qed.

Lemma startPauseTimer_fresh t w id :
  slotAgrees w -> pauseIntervalId (startPauseTimer t w) = Some id ->
  id = nextTimer w /\ nextTimer (startPauseTimer t w) = S id.
Proof.
  intros Hs. unfold startPauseTimer.
  destruct (stopPauseTimer_frame w) as (_ & _ & _ & _ & _ & Hn).
  destruct (findVideo (stopPauseTimer w)); simpl.
  - rewrite Hn. intros [= <-]. done.
  - rewrite stopPauseTimer_slot. discriminate.
Qed.

End Invariant.

(* ===================================================================== *)
(** ** Properties of the scheduler *)
(* ===================================================================== *)

(** C1.  Two calls of [startPauseTimer] in a row, with targets [t1] and
    [t2]: the second call clears the timer the first call created before
    it returns, every timer still active is the one in the slot and is
    bound to [t2], and whatever ticks and changes of the page follow,
    every pause issued from then on comes from a callback bound to [t2]. *)
Theorem reschedule_invalidates_previous
    (t1 t2 : number) (w : World) (es : list event)
    (Hslot : slotAgrees w) (Hpassive : forallb passive es = true) :
  let w1 := startPauseTimer t1 w in
  let w2 := startPauseTimer t2 w1 in
  (forall id, pauseIntervalId w1 = Some id -> intervals w2 !! id = None) /\
  (forall id cb, intervals w2 !! id = Some cb ->
                 pauseIntervalId w2 = Some id /\ cbTarget cb = t2) /\
  exists new, pauseCalls (run es w2) = new ++ pauseCalls w /\
              Forall (fun pc => pcTarget pc = t2) new.
Proof.
  intros w1 w2.
  assert (Hs1 : slotAgrees w1) by by apply startPauseTimer_slotAgrees.
  assert (Hp : pauseCalls w2 = pauseCalls w).
  { unfold w2, w1. by rewrite !startPauseTimer_pauseCalls. }
  destruct (findVideo w1) as [video|] eqn:Hv.
  - destruct (startPauseTimer_present t2 w1 video Hs1 Hv) as (Hid & Hiv & _).
    fold w2 in Hid, Hiv.
    split; [| split].
    + intros id Hid1. destruct (startPauseTimer_fresh t1 w id Hslot Hid1) as [_ Hn].
      fold w1 in Hn. rewrite Hiv, Hn. apply lookup_singleton_ne. lia.
    + intros id cb. rewrite Hiv.
      intros [<- <-]%lookup_singleton_Some. by rewrite Hid.
    + assert (Ha : Armed t2 w2) by by eapply startPauseTimer_Armed.
      destruct (passive_run_Armed es t2 w2 Hpassive Ha) as (new & Hn & Hf & _).
      exists new. by rewrite Hn, Hp.
  - assert (Hi : Idle w2).
    { unfold w2. rewrite startPauseTimer_absent by done.
      destruct (stopPauseTimer_Idle w1 Hs1). by split. }
    split; [| split].
    + intros id _. destruct Hi as [_ ->]. apply lookup_empty.
    + intros id cb. destruct Hi as [_ ->]. by rewrite lookup_empty.
    + destruct (passive_run_Idle es w2 Hpassive Hi) as [_ Hc].
      exists []. by rewrite Hc, Hp.
Qed.

Lemma reschedule_invalidates_previous_witness :
  let es := [EvSeek 7%nat (Fin 75); EvTick 1%nat; EvTick 2%nat; EvTick 1%nat] in
  let w1 := startPauseTimer (Fin 100) samplePage in
  let w2 := startPauseTimer (Fin 50) w1 in
  (forall id, pauseIntervalId w1 = Some id -> intervals w2 !! id = None) /\
  (forall id cb, intervals w2 !! id = Some cb ->
                 pauseIntervalId w2 = Some id /\ cbTarget cb = Fin 50) /\
  exists new, pauseCalls (run es w2) = new ++ pauseCalls samplePage /\
              Forall (fun pc => pcTarget pc = Fin 50) new.
Proof.
  apply (reschedule_invalidates_previous (Fin 100) (Fin 50) samplePage).
  - reflexivity.
  - reflexivity.
Defined.

(** C3.  A tick of the armed timer reads the position of its video.  When
    the position is at or past the target the tick issues one pause,
    leaves the video paused and the scheduler idle, and no later tick
    issues another; when the position is below the target the tick
    changes nothing. *)
Theorem poll_tick
    (w : World) (id : nat) (cb : Callback) (v : VideoElement) (es : list event)
    (Hslot : pauseIntervalId w = Some id)
    (Htimer : intervals w = {[ id := cb ]})
    (Hvideo : videos w !! cbVideo cb = Some v)
    (Hpassive : forallb passive es = true) :
  if nge (currentTime v) (cbTarget cb)
  then pauseCalls (tick id w)
         = mkPauseCall id (cbVideo cb) (cbTarget cb) :: pauseCalls w /\
       Idle (tick id w) /\
       videos (tick id w) !! cbVideo cb
         = Some (mkVideo (currentTime v) (duration v) true) /\
       Idle (run es (tick id w)) /\
       pauseCalls (run es (tick id w)) = pauseCalls (tick id w)
  else tick id w = w.
Proof.
  destruct (nge (currentTime v) (cbTarget cb)) eqn:Hge.
  - destruct (tick_fires w id cb v Hslot Htimer Hvideo Hge) as (Hc & Hi & Hp).
    destruct (passive_run_Idle es (tick id w) Hpassive Hi) as [Hi' Hc'].
    auto.
  - by eapply tick_waits.
Qed.

(** The position was 10, a seek takes it to 5000 with the target at 60:
    the next tick pauses once, and the ticks after it do nothing. *)
Lemma poll_tick_witness :
  let w := step (EvSeek 7%nat (Fin 5000)) (startPauseTimer (Fin 60) samplePage) in
  let es := [EvTick 1%nat; EvSeek 7%nat (Fin 6000); EvTick 1%nat] in
  pauseCalls (tick 1%nat w) = [mkPauseCall 1%nat 7%nat (Fin 60)] /\
  Idle (tick 1%nat w) /\
  videos (tick 1%nat w) !! 7%nat = Some (mkVideo (Fin 5000) (Fin 600) true) /\
  Idle (run es (tick 1%nat w)) /\
  pauseCalls (run es (tick 1%nat w)) = pauseCalls (tick 1%nat w).
Proof.
  intros w es.
  apply (poll_tick w 1%nat (mkCallback 7%nat (Fin 60))
           (mkVideo (Fin 5000) (Fin 600) false) es);
    reflexivity.
Defined.

(** C6.  [startPauseTimer] on a page without a video: the previous timer
    is cleared, none is created, the scheduler is idle, the condition is
    written to the console, no pause is issued then or by any later tick,
    and a later call, once the page has a video, arms the scheduler. *)
Theorem schedule_without_video
    (t : number) (w : World) (es : list event)
    (Hslot : slotAgrees w) (Habsent : findVideo w = None)
    (Hpassive : forallb passive es = true) :
  let w' := startPauseTimer t w in
  w' = logLine ErrNoVideo (stopPauseTimer w) /\
  Idle w' /\
  nextTimer w' = nextTimer w /\
  pauseCalls w' = pauseCalls w /\
  pauseCalls (run es w') = pauseCalls w /\
  forall video t', Armed t' (startPauseTimer t' (step (EvDocument (Some video)) w')).
Proof.
  intros w'.
  assert (He : w' = logLine ErrNoVideo (stopPauseTimer w))
    by by apply startPauseTimer_absent.
  assert (Hi : Idle w').
  { rewrite He. destruct (stopPauseTimer_Idle w Hslot). by split. }
  assert (Hc : pauseCalls w' = pauseCalls w) by apply startPauseTimer_pauseCalls.
  destruct (stopPauseTimer_frame w) as (_ & _ & _ & _ & _ & Hn).
  repeat split; try (by destruct Hi); try done.
  - by rewrite He.
  - destruct (passive_run_Idle es w' Hpassive Hi) as [_ ->]. exact Hc.
  - intros video t'. eapply startPauseTimer_Armed; [| reflexivity].
    apply Idle_slotAgrees. destruct Hi. by split.
Qed.

Lemma schedule_without_video_witness :
  let armed := startPauseTimer (Fin 30) samplePage in
  let w := step (EvDocument None) armed in
  let w' := startPauseTimer (Fin 90) w in
  w' = logLine ErrNoVideo (stopPauseTimer w) /\
  Idle w' /\
  nextTimer w' = nextTimer w /\
  pauseCalls w' = pauseCalls w /\
  pauseCalls (run [EvSeek 7%nat (Fin 500); EvTick 1%nat; EvTick 2%nat] w')
    = pauseCalls w /\
  forall video t', Armed t' (startPauseTimer t' (step (EvDocument (Some video)) w')).
Proof.
  intros armed w.
  apply (schedule_without_video (Fin 90) w).
  - unfold slotAgrees. simpl. eexists. reflexivity.
  - reflexivity.
  - reflexivity.
Defined.

(** C8.  [stopPauseTimer] is idempotent.  With a timer in the slot it
    clears the timer and empties the slot; with an empty slot it changes
    nothing.  After one call and after two the slot is empty, the second
    call changes nothing, and the console holds no error. *)
Theorem cancel_idempotent (w : World) (Hslot : slotAgrees w) :
  let w1 := stopPauseTimer w in
  let w2 := stopPauseTimer w1 in
  Idle w1 /\ Idle w2 /\ w2 = w1 /\
  pauseCalls w1 = pauseCalls w /\
  match pauseIntervalId w with
  | Some id => console w1 = LogTimerStopped :: console w
  | None => w1 = w
  end.
Proof.
  intros w1 w2.
  assert (Hi : Idle w1) by by apply stopPauseTimer_Idle.
  assert (He : w2 = w1).
  { unfold w2, stopPauseTimer at 1. by rewrite (proj1 Hi). }
  repeat split; try (rewrite ?He; by destruct Hi); try done.
  - apply stopPauseTimer_frame.
  - unfold w1, stopPauseTimer. by destruct (pauseIntervalId w).
Qed.

Lemma cancel_idempotent_witness :
  let w := startPauseTimer (Fin 30) samplePage in
  let w1 := stopPauseTimer w in
  let w2 := stopPauseTimer w1 in
  Idle w1 /\ Idle w2 /\ w2 = w1 /\
  pauseCalls w1 = pauseCalls w /\
  console w1 = LogTimerStopped :: console w.
Proof.
  intros w.
  apply (cancel_idempotent w).
  unfold slotAgrees. simpl. eexists. reflexivity.
Defined.

(** C10.  [startPauseTimer] does not look at its target.  On a page with
    a video the call arms the scheduler for any target.  With a negative
    target and a position that is not negative the first tick pauses;
    with the target [NaN] no tick ever pauses and the scheduler stays
    armed. *)
Theorem schedule_accepts_any_target
    (t : number) (w : World) (video : nat)
    (Hslot : slotAgrees w) (Hpresent : findVideo w = Some video) :
  let w' := startPauseTimer t w in
  let id := nextTimer w in
  Armed t w' /\
  pauseIntervalId w' = Some id /\
  pauseCalls w' = pauseCalls w /\
  (forall q p v,
      t = Fin q -> (q < 0)%Q ->
      videos w !! video = Some v -> currentTime v = Fin p -> (0 <= p)%Q ->
      pauseCalls (tick id w') = mkPauseCall id video t :: pauseCalls w /\
      Idle (tick id w')) /\
  (forall es,
      t = NaN -> forallb passive es = true ->
      Armed NaN (run es w') /\ pauseCalls (run es w') = pauseCalls w).
Proof.
  intros w' id.
  destruct (startPauseTimer_present t w video Hslot Hpresent)
    as (Hid & Hiv & Hc & Hvs & _).
  fold w' in Hid, Hiv, Hc, Hvs. fold id in Hid, Hiv.
  assert (Ha : Armed t w') by by eapply startPauseTimer_Armed.
  split; [exact Ha |]. split; [exact Hid |]. split; [exact Hc |]. split.
  - intros q p v -> Hq Hv Hcur Hp.
    destruct (tick_fires w' id (mkCallback video (Fin q)) v) as (H1 & H2 & _);
      simpl; try done.
    + by rewrite Hvs.
    + rewrite Hcur. simpl. apply Qle_bool_iff. lra.
    + split; [by rewrite H1, Hc | exact H2].
  - intros es -> Hes.
    destruct (passive_run_Armed_never es NaN w' nge_NaN Hes Ha) as [H1 H2].
    split; [exact H1 | by rewrite H2].
Qed.

Lemma schedule_accepts_any_target_witness :
  let negative := startPauseTimer (Fin (-5)) samplePage in
  let unreachable := startPauseTimer NaN samplePage in
  let es := [EvTick 1%nat; EvSeek 7%nat (Fin 599); EvTick 1%nat] in
  (Armed (Fin (-5)) negative /\
   pauseCalls (tick 1%nat negative) = [mkPauseCall 1%nat 7%nat (Fin (-5))] /\
   Idle (tick 1%nat negative)) /\
  (Armed NaN unreachable /\
   Armed NaN (run es unreachable) /\ pauseCalls (run es unreachable) = []).
Proof.
  intros negative unreachable es. split.
  - destruct (schedule_accepts_any_target (Fin (-5)) samplePage 7%nat)
      as (Ha & _ & _ & Hneg & _); [reflexivity | reflexivity |].
    split; [exact Ha |].
    apply (Hneg (-5)%Q 10%Q sampleVideo); reflexivity || (by compute).
  - destruct (schedule_accepts_any_target NaN samplePage 7%nat)
      as (Ha & _ & _ & _ & Hnan); [reflexivity | reflexivity |].
    split; [exact Ha |].
    apply (Hnan es); reflexivity.
Defined.

(* ===================================================================== *)
(** ** The panel and the stored flag *)
(* ===================================================================== *)

Section PanelVisibility.

Implicit Types (w : World) (t : number) (es : list event).

Lemma stopPauseTimer_ui w :
  panel (stopPauseTimer w) = panel w /\
  isPanelVisible (stopPauseTimer w) = isPanelVisible w.
Proof. destruct (stopPauseTimer_frame w) as (_ & _ & H1 & H2 & _). auto. Qed.

Lemma startPauseTimer_ui t w :
  panel (startPauseTimer t w) = panel w /\
  isPanelVisible (startPauseTimer t w) = isPanelVisible w.
Proof.
  unfold startPauseTimer. destruct (stopPauseTimer_ui w) as [H1 H2].
  destruct (findVideo (stopPauseTimer w)); simpl; auto.
Qed.

Lemma tick_ui id w :
  panel (tick id w) = panel w /\ isPanelVisible (tick id w) = isPanelVisible w.
Proof.
  unfold tick. destruct (intervals w !! id) as [cb|]; [| auto].
  unfold callback. destruct (videos w !! cbVideo cb) as [v|]; [| auto].
  destruct (nge _ _); [| auto]. simpl.
  apply (stopPauseTimer_ui
           (recordPause (mkPauseCall id (cbVideo cb) (cbTarget cb))
              (pauseVideo (cbVideo cb) w))).
Qed.

Lemma inLockstep_ext w w' :
  panel w' = panel w -> isPanelVisible w' = isPanelVisible w ->
  inLockstep w -> inLockstep w'.
Proof. unfold inLockstep, panelPresent. intros -> ->. auto. Qed.

Lemma togglePanel_flips w :
  panelPresent (togglePanel w) = negb (panelPresent w) /\
  isPanelVisible (togglePanel w) = Some (negb (panelPresent w)).
Proof.
  unfold togglePanel, panelPresent. destruct (panel w) eqn:Ep; simpl; [auto |].
  destruct (injectPanel_frame w) as (_ & _ & _ & [p ->]). auto.
Qed.

Lemma togglePanel_inLockstep w : inLockstep (togglePanel w).
Proof.
  unfold inLockstep. destruct (togglePanel_flips w) as [-> ->]. reflexivity.
Qed.

Lemma step_inLockstep e w : inLockstep w -> inLockstep (step e w).
Proof.
  intros Hl. destruct e; simpl; try exact Hl.
  - destruct (tick_ui id w). by eapply inLockstep_ext.
  - revert Hl. unfold inLockstep, panelPresent.
    destruct (panel w) eqn:Ep; simpl; rewrite ?Ep; auto.
  - destruct (startPauseTimer_ui target w). by eapply inLockstep_ext.
  - destruct (stopPauseTimer_ui w). by eapply inLockstep_ext.
  - apply togglePanel_inLockstep.
  - unfold clickChosenTimestamp. destruct (panel w) as [p|] eqn:Ep; [| exact Hl].
    destruct (timestampTarget (timestampInput p)).
    + destruct (startPauseTimer_ui (ofInt j) w). by eapply inLockstep_ext.
    + exact Hl.
  - unfold clickPartition. destruct (panel w) eqn:Ep; [| exact Hl].
    destruct (_ || _); [exact Hl |].
    destruct (findVideo w) as [video|]; [| exact Hl].
    destruct (videos w !! video) as [v|]; [| exact Hl].
    destruct (startPauseTimer_ui (nmul (duration v) (fdiv percentage (Fin 100))) w).
    by eapply inLockstep_ext.
  - unfold clickClose. destruct (panel w) eqn:Ep; [reflexivity | exact Hl].
  - unfold onStorageRead.
    destruct (isPanelVisible w) as [[|]|] eqn:Es; try exact Hl.
    unfold inLockstep, panelPresent.
    destruct (injectPanel_frame w) as (_ & _ & -> & [p ->]). exact Es.
Qed.

Lemma run_inLockstep es w : inLockstep w -> inLockstep (run es w).
Proof.
  revert w. induction es as [|e es IH]; intros w Hl; [exact Hl |].
  simpl. apply IH. by apply step_inLockstep.
Qed.

End PanelVisibility.

(** C9.  The [togglePanel] message flips the presence of the panel and
    writes the stored flag to the new presence in the same call: a panel
    in the page is removed and [false] is stored, otherwise the panel is
    injected and [true] is stored.  [injectPanel] on a page that has the
    panel only writes a line to the console.  After a toggle the panel
    and the flag agree, and they still agree after any events that
    follow, further toggles among them. *)
Theorem toggle_keeps_lockstep (w : World) (es : list event) (n : nat) :
  let w' := togglePanel w in
  panelPresent w' = negb (panelPresent w) /\
  isPanelVisible w' = Some (negb (panelPresent w)) /\
  inLockstep w' /\
  inLockstep (run (repeat EvToggle n) w') /\
  inLockstep (run es w') /\
  match panel w with
  | Some _ => panel w' = None /\ injectPanel w = logLine LogPanelExists w
  | None => w' = setStorage true (injectPanel w)
  end.
Proof.
  intros w'. destruct (togglePanel_flips w) as [H1 H2].
  pose proof (togglePanel_inLockstep w) as H3.
  repeat split; try done.
  - by apply run_inLockstep.
  - by apply run_inLockstep.
  - unfold w', togglePanel, injectPanel. by destruct (panel w).
Qed.

(* ===================================================================== *)
(** ** The matcher decides the language of the pattern *)
(* ===================================================================== *)

Section Matcher.

Implicit Types (r : regex) (s : list ascii) (c : ascii).

Lemma lang_seq_inv r1 r2 s :
  lang (RSeq r1 r2) s -> exists s1 s2, s = s1 ++ s2 /\ lang r1 s1 /\ lang r2 s2.
Proof. intros H. inversion H; subst. eauto. Qed.

Lemma lang_alt_inv r1 r2 s : lang (RAlt r1 r2) s -> lang r1 s \/ lang r2 s.
Proof. intros H. inversion H; subst; auto. Qed.

Lemma lang_digit_inv s : lang RDigit s -> exists c, s = [c] /\ isDigit c = true.
Proof. intros H. inversion H; subst. eauto. Qed.

Lemma lang_char_inv d s : lang (RChar d) s -> s = [d].
Proof. intros H. inversion H; subst. reflexivity. Qed.

Lemma lang_eps_inv s : lang REps s -> s = [].
Proof. intros H. inversion H; subst. reflexivity. Qed.

Lemma lang_none_inv s : ~ lang RNone s.
Proof. intros H. inversion H. Qed.

Lemma nullable_spec r : nullable r = true <-> lang r [].
Proof.
  induction r as [| | | d | r1 IH1 r2 IH2 | r1 IH1 r2 IH2 | r IH]; simpl.
  - split; [discriminate | intros H; by apply lang_none_inv in H].
  - split; [constructor | reflexivity].
  - split; [discriminate |]. intros (c & H & _)%lang_digit_inv. discriminate.
  - split; [discriminate |]. intros H%lang_char_inv. discriminate.
  - rewrite andb_true_iff, IH1, IH2. split.
    + intros [H1 H2]. apply (LSeq r1 r2 [] []); assumption.
    + intros (s1 & s2 & Heq & H1 & H2)%lang_seq_inv.
      symmetry in Heq. apply app_eq_nil in Heq as [-> ->]. auto.
  - rewrite orb_true_iff, IH1, IH2. split.
    + intros [H | H]; [apply LAltL | apply LAltR]; assumption.
    + apply lang_alt_inv.
  - split; [constructor | reflexivity].
Qed.

(** A non-empty word of [r*] starts with a non-empty word of [r]. *)
Lemma lang_star_cons r c s :
  lang (RStar r) (c :: s) ->
  exists s1 s2, s = s1 ++ s2 /\ lang r (c :: s1) /\ lang (RStar r) s2.
Proof.
  intros H. remember (RStar r) as r' eqn:Er. remember (c :: s) as cs eqn:Es.
  revert s Es.
  induction H as [| | | | | | r0 | r0 s1 s2 H1 _ H2 IH2]; try discriminate.
  injection Er as ->. intros s Es.
  destruct s1 as [| c' s1'].
  - simpl in Es. apply IH2; auto.
  - simpl in Es. injection Es as -> <-. exists s1', s2. auto.
Qed.

Lemma deriv_spec r : forall c s, lang (deriv c r) s <-> lang r (c :: s).
Proof.
  induction r as [| | | d | r1 IH1 r2 IH2 | r1 IH1 r2 IH2 | r IH]; intros c s; simpl.
  - split; intros H; by apply lang_none_inv in H.
  - split; intros H; [by apply lang_none_inv in H |].
    apply lang_eps_inv in H. discriminate.
  - destruct (isDigit c) eqn:Hd; split; intros H.
    + apply lang_eps_inv in H as ->. by constructor.
    + apply lang_digit_inv in H as (c' & [= -> ->] & _). constructor.
    + by apply lang_none_inv in H.
    + apply lang_digit_inv in H as (c' & [= -> ->] & H). congruence.
  - destruct (Ascii.eqb_spec c d) as [-> | Hne]; split; intros H.
    + apply lang_eps_inv in H as ->. constructor.
    + apply lang_char_inv in H as [= ->]. constructor.
    + by apply lang_none_inv in H.
    + apply lang_char_inv in H as [= -> ->]. congruence.
  - assert (Hseq : lang (RSeq (deriv c r1) r2) s ->
                   lang (RSeq r1 r2) (c :: s)).
    { intros (s1 & s2 & -> & H1 & H2)%lang_seq_inv.
      apply IH1 in H1. apply (LSeq r1 r2 (c :: s1) s2); assumption. }
    destruct (nullable r1) eqn:Hn.
    + split.
      * intros [H | H]%lang_alt_inv; [by apply Hseq |].
        apply IH2 in H. apply nullable_spec in Hn.
        apply (LSeq r1 r2 [] (c :: s)); assumption.
      * intros (s1 & s2 & Heq & H1 & H2)%lang_seq_inv.
        destruct s1 as [| c' s1'].
        -- simpl in Heq. subst. apply LAltR. by apply IH2.
        -- simpl in Heq. injection Heq as -> ->.
           apply LAltL. constructor; [by apply IH1 | assumption].
    + split; [exact Hseq |].
      intros (s1 & s2 & Heq & H1 & H2)%lang_seq_inv.
      destruct s1 as [| c' s1'].
      * apply nullable_spec in H1. congruence.
      * simpl in Heq. injection Heq as -> ->.
        constructor; [by apply IH1 | assumption].
  - split.
    + intros [H | H]%lang_alt_inv; [apply LAltL, IH1 | apply LAltR, IH2]; exact H.
    + intros [H | H]%lang_alt_inv; [apply LAltL, IH1 | apply LAltR, IH2]; exact H.
  - split.
    + intros (s1 & s2 & -> & H1 & H2)%lang_seq_inv.
      apply IH in H1. apply (LStarCons r (c :: s1) s2); assumption.
    + intros H. apply lang_star_cons in H as (s1 & s2 & -> & H1 & H2).
      constructor; [by apply IH | assumption].
Qed.

Lemma matchb_spec s : forall r, matchb r s = true <-> lang r s.
Proof.
  induction s as [| c s IH]; intros r; simpl.
  - apply nullable_spec.
  - rewrite IH. apply deriv_spec.
Qed.

End Matcher.

(* ===================================================================== *)
(** ** The language of [hmsRegex] *)
(* ===================================================================== *)

Section Shapes.

Implicit Types (s h m sec : list ascii) (c : ascii).

Lemma lang_star_digits s : lang (RStar RDigit) s <-> allDigits s.
Proof.
  split.
  - intros H. remember (RStar RDigit) as r eqn:Er.
    induction H as [| | | | | | r0 | r0 s1 s2 H1 _ H2 IH2]; try discriminate.
    + constructor.
    + injection Er as ->.
      apply lang_digit_inv in H1 as (c & -> & Hc).
      constructor; [exact Hc | by apply IH2].
  - induction 1 as [| c s Hc _ IH]; [constructor |].
    apply (LStarCons RDigit [c] s); [by constructor | exact IH].
Qed.

Lemma lang_two_digits s :
  lang (rrep 2 RDigit) s <-> allDigits s /\ length s = 2%nat.
Proof.
  simpl. split.
  - intros (s1 & s2 & -> & (a & -> & Ha)%lang_digit_inv & H)%lang_seq_inv.
    apply lang_seq_inv in H
      as (s3 & s4 & -> & (b & -> & Hb)%lang_digit_inv & ->%lang_eps_inv).
    split; [| reflexivity]. repeat constructor; assumption.
  - intros [Hd Hl].
    destruct s as [| a [| b [| ? ?]]]; try discriminate.
    inversion Hd as [| ? ? Ha Hd']; subst. inversion Hd' as [| ? ? Hb _]; subst.
    apply (LSeq RDigit _ [a] [b]); [by constructor |].
    apply (LSeq RDigit _ [b] []); [by constructor | constructor].
Qed.

Lemma lang_some_digits s : lang (rplus RDigit) s <-> allDigits s /\ s <> [].
Proof.
  unfold rplus. split.
  - intros (s1 & s2 & -> & (a & -> & Ha)%lang_digit_inv & H)%lang_seq_inv.
    apply lang_star_digits in H. split; [by constructor | discriminate].
  - intros [Hd Hne]. destruct s as [| a s]; [done |].
    inversion Hd as [| ? ? Ha Hd']; subst.
    apply (LSeq RDigit _ [a] s); [by constructor | by apply lang_star_digits].
Qed.

Lemma lang_one_or_two_digits s :
  lang (rrange 1 1 RDigit) s <->
  allDigits s /\ (length s = 1%nat \/ length s = 2%nat).
Proof.
  unfold rrange. simpl. split.
  - intros (s1 & s2 & -> & H1 & H2)%lang_seq_inv.
    apply lang_seq_inv in H1
      as (s3 & s4 & -> & (a & -> & Ha)%lang_digit_inv & ->%lang_eps_inv).
    apply lang_alt_inv in H2 as [H2 | ->%lang_eps_inv].
    + apply lang_seq_inv in H2
        as (s5 & s6 & -> & (b & -> & Hb)%lang_digit_inv & ->%lang_eps_inv).
      split; [| by right]. repeat constructor; assumption.
    + split; [| by left]. repeat constructor; assumption.
  - intros [Hd [Hl | Hl]].
    + destruct s as [| a [| ? ?]]; try discriminate.
      inversion Hd as [| ? ? Ha _]; subst.
      apply (LSeq _ _ [a] []).
      * apply (LSeq RDigit REps [a] []); [by constructor | constructor].
      * apply LAltR. constructor.
    + destruct s as [| a [| b [| ? ?]]]; try discriminate.
      inversion Hd as [| ? ? Ha Hd']; subst. inversion Hd' as [| ? ? Hb _]; subst.
      apply (LSeq _ _ [a] [b]).
      * apply (LSeq RDigit REps [a] []); [by constructor | constructor].
      * apply LAltL. apply (LSeq RDigit REps [b] []); [by constructor | constructor].
Qed.

Lemma lang_colon_then r s :
  lang (RSeq (RChar colon) r) s <-> exists s', s = colon :: s' /\ lang r s'.
Proof.
  split.
  - intros (s1 & s2 & -> & ->%lang_char_inv & H)%lang_seq_inv. eauto.
  - intros (s' & -> & H). apply (LSeq _ r [colon] s'); [constructor | exact H].
Qed.

Lemma hmsRegex_lang s : lang hmsRegex s <-> shapeHMS s \/ shapeMS s.
Proof.
  unfold hmsRegex. split.
  - intros [H | H]%lang_alt_inv.
    + left.
      apply lang_seq_inv in H as (h & s1 & -> & [Hh Hne]%lang_some_digits & H).
      apply lang_colon_then in H as (s2 & -> & H).
      apply lang_seq_inv in H as (m & s3 & -> & [Hm Hlm]%lang_two_digits & H).
      apply lang_colon_then in H as (sec & -> & [Hs Hls]%lang_two_digits).
      exists h, m, sec. auto 10.
    + right.
      apply lang_seq_inv in H as (m & s1 & -> & [Hm Hlm]%lang_one_or_two_digits & H).
      apply lang_colon_then in H as (sec & -> & [Hs Hls]%lang_two_digits).
      exists m, sec. auto 10.
  - intros [(h & m & sec & -> & Hh & Hne & Hm & Hlm & Hs & Hls)
           | (m & sec & -> & Hm & Hlm & Hs & Hls)].
    + apply LAltL. constructor; [by apply lang_some_digits |].
      apply lang_colon_then. eexists; split; [reflexivity |].
      constructor; [by apply lang_two_digits |].
      apply lang_colon_then. eexists; split; [reflexivity |].
      by apply lang_two_digits.
    + apply LAltR. constructor; [by apply lang_one_or_two_digits |].
      apply lang_colon_then. eexists; split; [reflexivity |].
      by apply lang_two_digits.
Qed.

Lemma digit_not_colon c : isDigit c = true -> c <> colon.
Proof. intros H ->. discriminate. Qed.

Lemma shapes_disjoint s : ~ (shapeHMS s /\ shapeMS s).
Proof.
  intros [(h & m & sec & -> & _ & _ & _ & _ & _ & Hls)
          (m' & sec' & Heq & Hm' & _ & _ & Hls')].
  change (h ++ colon :: (m ++ colon :: sec))
    with (h ++ (colon :: m) ++ (colon :: sec)) in Heq.
  rewrite app_assoc in Heq.
  apply app_inj_2 in Heq as [<- _]; [| simpl; congruence].
  apply Forall_app in Hm' as [_ Hc]. inversion Hc as [| ? ? Hd _]; subst.
  by apply digit_not_colon in Hd.
Qed.

Lemma split_digits s : allDigits s -> split colon s = [s].
Proof.
  induction 1 as [| c s Hc _ IH]; [reflexivity |].
  simpl. destruct (Ascii.eqb_spec c colon) as [-> | _].
  - by apply digit_not_colon in Hc.
  - by rewrite IH.
Qed.

Lemma split_digits_colon h s :
  allDigits h -> split colon (h ++ colon :: s) = h :: split colon s.
Proof.
  induction 1 as [| c h Hc _ IH]; [reflexivity |].
  simpl. destruct (Ascii.eqb_spec c colon) as [-> | _].
  - by apply digit_not_colon in Hc.
  - by rewrite IH.
Qed.

Lemma Number_digits s : allDigits s -> Number s = IntV (decimalValue s).
Proof.
  intros H. unfold Number.
  replace (forallb isDigit s) with true; [reflexivity |].
  symmetry. apply forallb_forall. intros c Hin.
  unfold allDigits in H. rewrite Forall_forall in H. apply H.
  by apply list_elem_of_In.
Qed.

Lemma timestampToArray_three text h m sec :
  list_ascii_of_string text = h ++ colon :: (m ++ colon :: sec) ->
  allDigits h -> allDigits m -> allDigits sec ->
  timestampToArray text
    = [IntV (decimalValue h); IntV (decimalValue m); IntV (decimalValue sec)].
Proof.
  intros Heq Hh Hm Hs. unfold timestampToArray. rewrite Heq.
  rewrite (split_digits_colon h _ Hh), (split_digits_colon m _ Hm),
    (split_digits sec Hs).
  simpl. by rewrite !Number_digits.
Qed.

Lemma timestampToArray_two text m sec :
  list_ascii_of_string text = m ++ colon :: sec ->
  allDigits m -> allDigits sec ->
  timestampToArray text = [IntV 0; IntV (decimalValue m); IntV (decimalValue sec)].
Proof.
  intros Heq Hm Hs. unfold timestampToArray. rewrite Heq.
  rewrite (split_digits_colon m _ Hm), (split_digits sec Hs).
  simpl. by rewrite !Number_digits.
Qed.

Lemma isValidHMSFormat_spec text :
  isValidHMSFormat text = true <->
  shapeHMS (list_ascii_of_string text) \/ shapeMS (list_ascii_of_string text).
Proof. unfold isValidHMSFormat. rewrite matchb_spec. apply hmsRegex_lang. Qed.

End Shapes.

(** C4.  The timestamp handler accepts a text exactly when it has one of
    the two shapes [H:MM:SS] and [M:SS]/[MM:SS], which exclude each
    other, and otherwise writes the format error and schedules nothing.
    The fields are not range-checked.  An accepted text is decomposed
    into hours, minutes and seconds, the hours being 0 for the two-part
    shape; the fields are the values of their digits, for hours up to
    2^53, beyond which JavaScript rounds the hours to the nearest
    double. *)
Theorem parse_accepts_exactly_two_shapes (text : string) :
  let s := list_ascii_of_string text in
  (isValidHMSFormat text = true <-> shapeHMS s \/ shapeMS s) /\
  ~ (shapeHMS s /\ shapeMS s) /\
  (timestampTarget text = None <-> ~ (shapeHMS s \/ shapeMS s)) /\
  (forall w, panel w = Some (mkPanel text) -> timestampTarget text = None ->
             clickChosenTimestamp w = logLine ErrInvalidTimestamp w) /\
  (forall h m sec : list ascii,
      s = h ++ colon :: (m ++ colon :: sec) ->
      allDigits h -> decimalValue h <= 2 ^ 53 ->
      allDigits m -> length m = 2%nat ->
      allDigits sec -> length sec = 2%nat ->
      timestampToArray text
        = [IntV (decimalValue h); IntV (decimalValue m); IntV (decimalValue sec)]) /\
  (forall m sec : list ascii,
      s = m ++ colon :: sec ->
      allDigits m -> length m = 1%nat \/ length m = 2%nat ->
      allDigits sec -> length sec = 2%nat ->
      timestampToArray text
        = [IntV 0; IntV (decimalValue m); IntV (decimalValue sec)]) /\
  map isValidHMSFormat ["1:2"; "12:3:45"; "abc"; ""; "1:02:03:04"; "1:60"; "12:75"]%string
    = [false; false; false; false; false; true; true] /\
  map timestampToArray ["1:60"; "07:05"; "10:02:03"]%string
    = [[IntV 0; IntV 1; IntV 60]; [IntV 0; IntV 7; IntV 5];
       [IntV 10; IntV 2; IntV 3]].
Proof.
  intros s. pose proof (isValidHMSFormat_spec text) as Hv. fold s in Hv.
  split; [exact Hv |]. split; [apply shapes_disjoint |]. split.
  { unfold timestampTarget. destruct (isValidHMSFormat text).
    - split; [discriminate |]. intros Hn. exfalso. apply Hn, Hv. reflexivity.
    - split; [| reflexivity]. intros _ Hs. apply Hv in Hs. discriminate. }
  split.
  { intros w Hp Ht. unfold clickChosenTimestamp. rewrite Hp. simpl. by rewrite Ht. }
  split.
  { intros h m sec Heq Hh _ Hm _ Hsec _. by apply timestampToArray_three. }
  split.
  { intros m sec Heq Hm _ Hsec _. by apply timestampToArray_two. }
  split; reflexivity.
Qed.

Lemma parse_accepts_exactly_two_shapes_witness :
  (isValidHMSFormat "1:60" = true /\
   timestampToArray "1:60" = [IntV 0; IntV 1; IntV 60]) /\
  (isValidHMSFormat "10:02:03" = true /\
   timestampToArray "10:02:03" = [IntV 10; IntV 2; IntV 3]) /\
  (timestampTarget "12:3:45" = None /\
   clickChosenTimestamp (step (EvTypeTimestamp "12:3:45") panelPage)
     = logLine ErrInvalidTimestamp (step (EvTypeTimestamp "12:3:45") panelPage)).
Proof.
  split; [| split].
  - destruct (parse_accepts_exactly_two_shapes "1:60")
      as (Hv & _ & _ & _ & _ & H2 & _).
    split.
    + apply Hv. right.
      exists (list_ascii_of_string "1"), (list_ascii_of_string "60").
      repeat split; auto; repeat constructor.
    + apply (H2 (list_ascii_of_string "1") (list_ascii_of_string "60"));
        [reflexivity | | by left | | reflexivity]; repeat constructor.
  - destruct (parse_accepts_exactly_two_shapes "10:02:03")
      as (Hv & _ & _ & _ & H3 & _).
    split.
    + apply Hv. left.
      exists (list_ascii_of_string "10"), (list_ascii_of_string "02"),
        (list_ascii_of_string "03").
      repeat split; auto; try discriminate; repeat constructor.
    + apply (H3 (list_ascii_of_string "10") (list_ascii_of_string "02")
               (list_ascii_of_string "03"));
        [reflexivity | | discriminate | | reflexivity | | reflexivity];
        repeat constructor.
  - destruct (parse_accepts_exactly_two_shapes "12:3:45")
      as (_ & _ & _ & Hc & _).
    split; [reflexivity |]. apply Hc; reflexivity.
Defined.

(* ===================================================================== *)
(** ** Rounding to the nearest double *)
(* ===================================================================== *)

Section PowersOfTwo.

Implicit Types (a b e n : Z) (x y q : Q).

Lemma pow2_pos e : (0 < pow2 e)%Q.
Proof. apply Qpower_0_lt. reflexivity. Qed.

Lemma pow2_add a b : (pow2 (a + b) == pow2 a * pow2 b)%Q.
Proof. apply Qpower_plus. discriminate. Qed.

Lemma pow2_le a b : a <= b -> (pow2 a <= pow2 b)%Q.
Proof. intros H. apply Qpower_le_compat_l; [exact H | discriminate]. Qed.

Lemma pow2_lt_inv a b : (pow2 a < pow2 b)%Q -> a < b.
Proof. intros H. apply (Qpower_lt_compat_l_inv 2); [exact H | reflexivity]. Qed.

Lemma pow2_Z n : 0 <= n -> (pow2 n == inject_Z (2 ^ n))%Q.
Proof. intros H. unfold pow2. rewrite (Zpower_Qpower 2 n H). reflexivity. Qed.

End PowersOfTwo.

Section Logarithm.

Implicit Types (a b e n : Z) (x y q : Q).

(** [ilog2 q] is the integer part of the binary logarithm of [q]. *)
Lemma ilog2_spec q :
  (0 < q)%Q -> (pow2 (ilog2 q) <= q /\ q < pow2 (ilog2 q + 1))%Q.
Proof.
  intros Hq. destruct q as [n d].
  assert (Hn : 0 < n).
  { unfold Qlt in Hq. simpl in Hq. lia. }
  set (a := Z.log2 n). set (b := Z.log2 (Z.pos d)).
  destruct (Z.log2_spec n Hn) as [Ha1 Ha2]. fold a in Ha1, Ha2.
  destruct (Z.log2_spec (Z.pos d) ltac:(lia)) as [Hb1 Hb2]. fold b in Hb1, Hb2.
  assert (Ha0 : 0 <= a) by apply Z.log2_nonneg.
  assert (Hb0 : 0 <= b) by apply Z.log2_nonneg.
  assert (HN1 : (pow2 a <= inject_Z n)%Q).
  { rewrite pow2_Z by lia. rewrite <- Zle_Qle. assumption. }
  assert (HN2 : (inject_Z n < pow2 (a + 1))%Q).
  { rewrite pow2_Z by lia. rewrite <- Zlt_Qlt. by rewrite Z.add_1_r. }
  assert (HD1 : (pow2 b <= inject_Z (Z.pos d))%Q).
  { rewrite pow2_Z by lia. rewrite <- Zle_Qle. assumption. }
  assert (HD2 : (inject_Z (Z.pos d) < pow2 (b + 1))%Q).
  { rewrite pow2_Z by lia. rewrite <- Zlt_Qlt. by rewrite Z.add_1_r. }
  assert (HD0 : (0 < inject_Z (Z.pos d))%Q) by reflexivity.
  assert (Heq : (n # d == inject_Z n / inject_Z (Z.pos d))%Q)
    by apply Qmake_Qdiv.
  assert (Hup : (n # d < pow2 (a - b + 1))%Q).
  { rewrite Heq. apply Qlt_shift_div_r; [exact HD0 |].
    eapply Qlt_le_trans; [exact HN2 |].
    replace (a + 1) with ((a - b + 1) + b) by lia. rewrite pow2_add.
    apply Qmult_le_l; [apply pow2_pos | exact HD1]. }
  assert (Hlo : (pow2 (a - b - 1) < n # d)%Q).
  { rewrite Heq. apply Qlt_shift_div_l; [exact HD0 |].
    eapply Qlt_le_trans; [| exact HN1].
    replace a with ((a - b - 1) + (b + 1)) at 2 by lia. rewrite pow2_add.
    apply Qmult_lt_l; [apply pow2_pos | exact HD2]. }
  unfold ilog2. cbn [Qnum Qden]. fold a b.
  destruct (Qle_bool (pow2 (a - b)) (n # d)) eqn:E.
  - apply Qle_bool_iff in E. split; [exact E | exact Hup].
  - split; [apply Qlt_le_weak, Hlo |].
    replace (a - b - 1 + 1) with (a - b) by lia.
    apply Qnot_le_lt. intros H. apply Qle_bool_iff in H. congruence.
Qed.

(** The logarithm is monotone. *)
Lemma ilog2_le x y : (0 < x)%Q -> (x <= y)%Q -> ilog2 x <= ilog2 y.
Proof.
  intros Hx Hxy.
  destruct (ilog2_spec x Hx) as [H1 _].
  destruct (ilog2_spec y) as [_ H2]; [lra |].
  assert (H : ilog2 x < ilog2 y + 1); [| lia].
  apply pow2_lt_inv. lra.
Qed.

End Logarithm.

Section NearestInteger.

Implicit Types (n f : Z) (x y : Q).

Lemma rne_cases x :
  let f := Qfloor x in
  let r := (x - inject_Z f)%Q in
  (rne x = f /\ (r <= 1 # 2)%Q) \/ (rne x = f + 1 /\ (1 # 2 <= r)%Q).
Proof.
  intros f r. unfold rne. fold f. fold r.
  destruct (Qle_bool (1 # 2) r) eqn:E1.
  - apply Qle_bool_iff in E1.
    destruct (Qle_bool r (1 # 2)) eqn:E2.
    + apply Qle_bool_iff in E2. destruct (Z.even f); [left | right]; auto.
    + right. auto.
  - left. split; [reflexivity |].
    apply Qlt_le_weak, Qnot_le_lt. intros H. apply Qle_bool_iff in H. congruence.
Qed.

Lemma rne_floor x : Qfloor x <= rne x <= Qfloor x + 1.
Proof. destruct (rne_cases x) as [[-> _] | [-> _]]; lia. Qed.

Lemma rne_int x n : (x == inject_Z n)%Q -> rne x = n.
Proof.
  intros H.
  assert (Hf : Qfloor x = n) by (rewrite H; apply Qfloor_Z).
  unfold rne. rewrite Hf.
  destruct (Qle_bool (1 # 2) (x - inject_Z n)) eqn:E; [| reflexivity].
  apply Qle_bool_iff in E. lra.
Qed.

Lemma rne_ge_int x n : (inject_Z n <= x)%Q -> n <= rne x.
Proof.
  intros H. pose proof (Qfloor_resp_le _ _ H) as Hf. rewrite Qfloor_Z in Hf.
  pose proof (rne_floor x). lia.
Qed.

Lemma rne_le_int x n : (x <= inject_Z n)%Q -> rne x <= n.
Proof.
  intros H. pose proof (Qfloor_resp_le _ _ H) as Hf. rewrite Qfloor_Z in Hf.
  destruct (Z.eq_dec (Qfloor x) n) as [He | Hne].
  - rewrite (rne_int x n); [lia |].
    pose proof (Qfloor_le x) as Hl. rewrite He in Hl. lra.
  - pose proof (rne_floor x). lia.
Qed.

Lemma rne_mono x y : (x <= y)%Q -> rne x <= rne y.
Proof.
  intros H. pose proof (Qfloor_resp_le _ _ H) as Hf.
  destruct (Z.eq_dec (Qfloor x) (Qfloor y)) as [He | Hne].
  - unfold rne. rewrite He.
    set (f := Qfloor y). set (rx := (x - inject_Z f)%Q). set (ry := (y - inject_Z f)%Q).
    assert (Hr : (rx <= ry)%Q) by (unfold rx, ry; lra).
    destruct (Qle_bool (1 # 2) rx) eqn:X1; destruct (Qle_bool (1 # 2) ry) eqn:Y1;
      try (destruct (Qle_bool rx (1 # 2)) eqn:X2);
      try (destruct (Qle_bool ry (1 # 2)) eqn:Y2);
      try (destruct (Z.even f)); try lia;
      exfalso;
      repeat match goal with
             | E : Qle_bool _ _ = true |- _ => apply Qle_bool_iff in E
             | E : Qle_bool ?a ?b = false |- _ =>
                 assert (b < a)%Q
                   by (apply Qnot_le_lt; intros H'; apply Qle_bool_iff in H'; congruence);
                 clear E
             end; lra.
  - pose proof (rne_floor x). pose proof (rne_floor y). lia.
Qed.

End NearestInteger.

Section Rounding53.

Implicit Types (e n z : Z) (x y q : Q).

Lemma expo_min x : -1074 <= expo x.
Proof. unfold expo. lia. Qed.

Lemma expo_upper x : (0 < x)%Q -> (x < pow2 (expo x + 53))%Q.
Proof.
  intros Hx.
  pose proof (Qabs_pos x ltac:(lra)) as Ha.
  destruct (ilog2_spec (Qabs x)) as [_ H]; [lra |].
  apply Qlt_le_trans with (pow2 (ilog2 (Qabs x) + 1)); [lra |].
  apply pow2_le. unfold expo. lia.
Qed.

Lemma expo_lower x : (0 < x)%Q -> -1074 < expo x -> (pow2 (expo x + 52) <= x)%Q.
Proof.
  intros Hx He.
  pose proof (Qabs_pos x ltac:(lra)) as Ha.
  destruct (ilog2_spec (Qabs x)) as [H _]; [lra |].
  apply Qle_trans with (pow2 (ilog2 (Qabs x))); [| lra].
  apply pow2_le. unfold expo in *. lia.
Qed.

Lemma expo_mono x y : (0 < x)%Q -> (x <= y)%Q -> expo x <= expo y.
Proof.
  intros Hx Hxy.
  assert (H : ilog2 (Qabs x) <= ilog2 (Qabs y)).
  { pose proof (Qabs_pos x ltac:(lra)). pose proof (Qabs_pos y ltac:(lra)).
    apply ilog2_le; lra. }
  unfold expo. lia.
Qed.

Lemma div_le_div x y u : (0 < u)%Q -> (x <= y)%Q -> (x / u <= y / u)%Q.
Proof.
  intros Hu H. apply Qle_shift_div_l; [exact Hu |].
  assert (E : (x / u * u == x)%Q) by (field; lra). lra.
Qed.

Lemma nearestOnGrid_nonneg x : (0 <= x)%Q -> (0 <= nearestOnGrid x)%Q.
Proof.
  intros Hx. unfold nearestOnGrid. pose proof (pow2_pos (expo x)) as Hu.
  apply Qmult_le_0_compat; [| lra].
  change 0%Q with (inject_Z 0). rewrite <- Zle_Qle. apply rne_ge_int.
  change (inject_Z 0) with 0%Q. apply Qle_shift_div_l; [exact Hu | lra].
Qed.

(** On the grid of its own exponent and on every coarser one, a greater
    number is rounded to a greater or equal one. *)
Lemma nearestOnGrid_mono x y :
  (0 < x)%Q -> (x <= y)%Q -> (nearestOnGrid x <= nearestOnGrid y)%Q.
Proof.
  intros Hx Hxy. pose proof (expo_mono x y Hx Hxy) as He.
  pose proof (pow2_pos (expo x)) as Hux. pose proof (pow2_pos (expo y)) as Huy.
  unfold nearestOnGrid.
  destruct (Z.eq_dec (expo x) (expo y)) as [Heq | Hne].
  - rewrite Heq. apply Qmult_le_compat_r; [| lra].
    rewrite <- Zle_Qle. apply rne_mono, div_le_div; [exact Huy | exact Hxy].
  - assert (Hlt : expo x < expo y) by lia.
    set (B := pow2 (expo y + 52)).
    apply Qle_trans with B.
    + set (N := 2 ^ (expo y + 52 - expo x)).
      assert (HN : (inject_Z N * pow2 (expo x) == B)%Q).
      { unfold N, B. rewrite <- pow2_Z by lia. rewrite <- pow2_add.
        replace (expo y + 52 - expo x + expo x) with (expo y + 52) by lia.
        reflexivity. }
      rewrite <- HN. apply Qmult_le_compat_r; [| lra].
      rewrite <- Zle_Qle. apply rne_le_int.
      apply Qle_shift_div_r; [exact Hux |]. rewrite HN.
      apply Qlt_le_weak. eapply Qlt_le_trans; [apply (expo_upper x Hx) |].
      apply pow2_le. lia.
    + assert (HB : (inject_Z (2 ^ 52) * pow2 (expo y) == B)%Q).
      { unfold B. rewrite <- pow2_Z by lia. rewrite <- pow2_add.
        replace (52 + expo y) with (expo y + 52) by lia. reflexivity. }
      rewrite <- HB. apply Qmult_le_compat_r; [| lra].
      rewrite <- Zle_Qle. apply rne_ge_int.
      apply Qle_shift_div_l; [exact Huy |]. rewrite HB.
      apply expo_lower; [lra |]. pose proof (expo_min x). lia.
Qed.

Lemma roundDouble_comp x y : (x == y)%Q -> roundDouble x = roundDouble y.
Proof. intros H. unfold roundDouble. by rewrite (Qred_complete x y H). Qed.

Lemma roundDouble_zero q : (q == 0)%Q -> roundDouble q = 0%Q.
Proof. intros H. rewrite (roundDouble_comp q 0 H). reflexivity. Qed.

Lemma roundDouble_grid q :
  ~ (q == 0)%Q -> (roundDouble q == nearestOnGrid (Qred q))%Q.
Proof.
  intros H. unfold roundDouble.
  destruct (Qeq_bool (Qred q) 0) eqn:E.
  - apply Qeq_bool_iff in E. rewrite Qred_correct in E. contradiction.
  - apply Qred_correct.
Qed.

Lemma roundDouble_nonneg q : (0 <= q)%Q -> (0 <= roundDouble q)%Q.
Proof.
  intros H. unfold roundDouble.
  destruct (Qeq_bool (Qred q) 0); [lra |].
  rewrite Qred_correct. apply nearestOnGrid_nonneg. by rewrite Qred_correct.
Qed.

(** Rounding is monotone on the non-negative numbers. *)
Lemma roundDouble_mono x y :
  (0 <= x)%Q -> (x <= y)%Q -> (roundDouble x <= roundDouble y)%Q.
Proof.
  intros Hx Hxy.
  destruct (Qeq_dec x 0) as [H0 | Hne].
  - rewrite (roundDouble_zero x H0). apply roundDouble_nonneg. lra.
  - assert (Hy : ~ (y == 0)%Q) by (intros H; apply Hne; lra).
    rewrite (roundDouble_grid x Hne), (roundDouble_grid y Hy).
    apply nearestOnGrid_mono; rewrite !Qred_correct; [| exact Hxy].
    destruct (Qlt_le_dec 0 x) as [H | H]; [exact H |].
    exfalso. apply Hne. lra.
Qed.

(** The whole numbers below 2^53 are doubles. *)
Lemma roundDouble_Z z : 0 <= z < 2 ^ 53 -> (roundDouble (inject_Z z) == inject_Z z)%Q.
Proof.
  intros Hz. destruct (Z.eq_dec z 0) as [-> | Hne]; [reflexivity |].
  assert (Hpos : (0 < inject_Z z)%Q).
  { change 0%Q with (inject_Z 0). rewrite <- Zlt_Qlt. lia. }
  rewrite roundDouble_grid by lra.
  set (x := Qred (inject_Z z)).
  assert (Hx : (x == inject_Z z)%Q) by apply Qred_correct.
  assert (Hx0 : (0 < x)%Q) by lra.
  assert (He : expo x <= 0).
  { pose proof (Qabs_pos x ltac:(lra)) as Ha.
    destruct (ilog2_spec (Qabs x)) as [H _]; [lra |].
    assert (Hl : ilog2 (Qabs x) < 53); [| unfold expo; lia].
    apply pow2_lt_inv. apply Qle_lt_trans with (inject_Z z); [lra |].
    rewrite (pow2_Z 53) by lia. rewrite <- Zlt_Qlt. lia. }
  set (k := - expo x).
  assert (Hk : 0 <= k) by (unfold k; lia).
  assert (Hu : (pow2 (expo x) * inject_Z (2 ^ k) == 1)%Q).
  { rewrite <- pow2_Z by lia. rewrite <- pow2_add.
    replace (expo x + k) with 0 by (unfold k; lia). reflexivity. }
  pose proof (pow2_pos (expo x)) as Hup.
  assert (Hq : (x / pow2 (expo x) == inject_Z (z * 2 ^ k))%Q).
  { rewrite inject_Z_mult, <- Hx.
    apply Qmult_inj_r with (pow2 (expo x)); [lra |].
    rewrite <- Qmult_assoc, (Qmult_comm (inject_Z (2 ^ k))), Hu.
    field. lra. }
  unfold nearestOnGrid. rewrite (rne_int _ _ Hq), inject_Z_mult.
  rewrite <- Qmult_assoc, (Qmult_comm (inject_Z (2 ^ k))), Hu. lra.
Qed.

End Rounding53.

(* ===================================================================== *)
(** ** Arithmetic of the duration formatting *)
(* ===================================================================== *)

Section Rounding.

Implicit Types (x s : Q) (z : Z).

Lemma Qfloor_bounds x :
  (inject_Z (Qfloor x) <= x /\ x < inject_Z (Qfloor x) + 1)%Q.
Proof.
  split; [apply Qfloor_le |].
  pose proof (Qlt_floor x) as H. rewrite inject_Z_plus in H. exact H.
Qed.

Lemma Qfloor_unique x z :
  (inject_Z z <= x)%Q -> (x < inject_Z z + 1)%Q -> Qfloor x = z.
Proof.
  intros H1 H2. destruct (Qfloor_bounds x) as [H3 H4].
  assert (Ha : (inject_Z z < inject_Z (Qfloor x + 1))%Q).
  { rewrite inject_Z_plus. change (inject_Z 1) with 1%Q. lra. }
  assert (Hb : (inject_Z (Qfloor x) < inject_Z (z + 1))%Q).
  { rewrite inject_Z_plus. change (inject_Z 1) with 1%Q. lra. }
  rewrite <- Zlt_Qlt in Ha, Hb. lia.
Qed.

Lemma Qfloor_range x (a b : Z) :
  (inject_Z a <= x)%Q -> (x < inject_Z b)%Q -> a <= Qfloor x < b.
Proof.
  intros H1 H2. destruct (Qfloor_bounds x) as [H3 H4].
  assert (Ha : (inject_Z a < inject_Z (Qfloor x + 1))%Q).
  { rewrite inject_Z_plus. change (inject_Z 1) with 1%Q. lra. }
  assert (Hb : (inject_Z (Qfloor x) < inject_Z b)%Q) by lra.
  rewrite <- Zlt_Qlt in Ha, Hb. lia.
Qed.

Lemma Qtrunc_nonneg x : (0 <= x)%Q -> Qtrunc x = Qfloor x.
Proof. intros H. unfold Qtrunc. apply Qle_bool_iff in H. by rewrite H. Qed.

Lemma roundHalfAway_nonneg x : (0 <= x)%Q -> roundHalfAway x = Qfloor (x + (1 # 2)).
Proof. intros H. unfold roundHalfAway. apply Qle_bool_iff in H. by rewrite H. Qed.

End Rounding.

Section Denotation.

Implicit Types (a b : number) (q d : Q).

Lemma denotes_Fin q : denotes (Fin q) q.
Proof. exists q. split; reflexivity. Qed.

Lemma denotes_eq a q q' : denotes a q -> (q == q')%Q -> denotes a q'.
Proof. intros (x & -> & Hx) Hq. exists x. split; [reflexivity |]. by rewrite Hx. Qed.

Lemma ndiv_denotes a q d :
  denotes a q -> ~ (d == 0)%Q -> denotes (ndiv a (Fin d)) (q / d).
Proof.
  intros (x & -> & Hx) Hd. unfold ndiv.
  destruct (Qeq_bool d 0) eqn:E; [by apply Qeq_bool_iff in E |].
  eexists. split; [reflexivity |]. by rewrite Qred_correct, Hx.
Qed.

Lemma fdiv_denotes a q d :
  denotes a q -> ~ (d == 0)%Q -> denotes (fdiv a (Fin d)) (roundDouble (q / d)).
Proof.
  intros (x & -> & Hx) Hd. unfold fdiv.
  destruct (Qeq_bool d 0) eqn:E; [by apply Qeq_bool_iff in E |].
  eexists. split; [reflexivity |].
  rewrite (roundDouble_comp (x / d) (q / d)); [reflexivity | by rewrite Hx].
Qed.

Lemma nmul_denotes a b q d :
  denotes a q -> denotes b d -> denotes (nmul a b) (roundDouble (q * d)).
Proof.
  intros (x & -> & Hx) (y & -> & Hy). unfold nmul.
  eexists. split; [reflexivity |].
  rewrite (roundDouble_comp (x * y) (q * d)); [reflexivity | by rewrite Hx, Hy].
Qed.

Lemma nrem_denotes a q d :
  denotes a q -> (0 <= q)%Q -> (0 < d)%Q -> denotes (nrem a (Fin d)) (qmod q d).
Proof.
  intros (x & -> & Hx) Hq Hd. unfold nrem, qmod.
  destruct (Qeq_bool d 0) eqn:E; [apply Qeq_bool_iff in E; lra |].
  eexists. split; [reflexivity |]. rewrite Qred_correct.
  assert (Hf : Qfloor (x / d) = Qfloor (q / d)).
  { apply Qfloor_comp. by rewrite Hx. }
  rewrite Qtrunc_nonneg.
  - rewrite Hf. lra.
  - apply Qle_shift_div_l; lra.
Qed.

Lemma Math_floor_denotes a q : denotes a q -> Math_floor a = IntV (Qfloor q).
Proof. intros (x & -> & Hx). simpl. by rewrite Hx. Qed.

Lemma Math_round_denotes a q :
  denotes a q -> Math_round a = IntV (Qfloor (q + (1 # 2))).
Proof. intros (x & -> & Hx). unfold Math_round. by rewrite Hx. Qed.

End Denotation.

Section Decomposition.

Variable s : Q.

Lemma qmod_3600_range : (0 <= qmod s 3600 /\ qmod s 3600 < 3600)%Q.
Proof.
  unfold qmod. destruct (Qfloor_bounds (s / 3600)) as [H1 H2].
  qconst. lra.
Qed.

Lemma qmod_60_range : (0 <= qmod s 60 /\ qmod s 60 < 60)%Q.
Proof.
  unfold qmod. destruct (Qfloor_bounds (s / 60)) as [H1 H2].
  qconst. lra.
Qed.

Lemma specHours_nonneg : (0 <= s)%Q -> 0 <= specHours s.
Proof.
  intros s_nonneg. unfold specHours.
  assert (H : 0 <= Qfloor (s / 3600) < Qfloor (s / 3600) + 1); [| lia].
  destruct (Qfloor_bounds (s / 3600)) as [H1 H2].
  apply Qfloor_range.
  - change (inject_Z 0) with 0%Q. qconst. lra.
  - rewrite inject_Z_plus. exact H2.
Qed.

Lemma specMinutes_range : 0 <= specMinutes s <= 59.
Proof.
  unfold specMinutes. destruct qmod_3600_range as [H1 H2].
  assert (H : 0 <= Qfloor (qmod s 3600 / 60) < 60); [| lia].
  apply Qfloor_range.
  - change (inject_Z 0) with 0%Q. qconst. lra.
  - change (inject_Z 60) with 60%Q. qconst. lra.
Qed.

Lemma specSeconds_range : 0 <= specSeconds s <= 60.
Proof.
  unfold specSeconds. destruct qmod_60_range as [H1 H2].
  rewrite roundHalfAway_nonneg by exact H1.
  assert (H : 0 <= Qfloor (qmod s 60 + (1 # 2)) < 61); [| lia].
  apply Qfloor_range.
  - change (inject_Z 0) with 0%Q. lra.
  - change (inject_Z 61) with 61%Q. lra.
Qed.

(** The seconds round up to 60 exactly on the last half second of a
    minute. *)
Lemma specSeconds_sixty : specSeconds s = 60 <-> (119 # 2 <= qmod s 60)%Q.
Proof.
  unfold specSeconds. destruct qmod_60_range as [H1 H2].
  rewrite roundHalfAway_nonneg by exact H1. split.
  - intros H. destruct (Qfloor_bounds (qmod s 60 + (1 # 2))) as [H3 _].
    rewrite H in H3. change (inject_Z 60) with 60%Q in H3. lra.
  - intros H. apply Qfloor_unique; change (inject_Z 60) with 60%Q; lra.
Qed.

(** Taking the remainder by 3600 first does not change the remainder
    by 60. *)
Lemma qmod_3600_60 : (qmod (qmod s 3600) 60 == qmod s 60)%Q.
Proof.
  assert (H : Qfloor (s / 60)
              = 60 * Qfloor (s / 3600) + Qfloor (qmod s 3600 / 60)).
  { destruct (Qfloor_bounds (qmod s 3600 / 60)) as [H1 H2].
    apply Qfloor_unique; rewrite inject_Z_plus, inject_Z_mult;
      change (inject_Z 60) with 60%Q; unfold qmod in *; qconst; lra. }
  unfold qmod at 1 3. rewrite H. rewrite inject_Z_plus, inject_Z_mult.
  change (inject_Z 60) with 60%Q. unfold qmod. qconst. lra.
Qed.

End Decomposition.

(* ===================================================================== *)
(** ** Rendering *)
(* ===================================================================== *)

Section Rendering.

Implicit Types (z h m sec : Z) (a b c : jsint).

Lemma pad_twoDigits z : 0 <= z <= 60 -> padStart 2 "0" (decimal z) = twoDigits z.
Proof.
  intros H.
  assert (Hn : forall n, (n < 61)%nat ->
               padStart 2 "0" (decimal (Z.of_nat n)) = twoDigits (Z.of_nat n)).
  { intros n Hn. do 61 (destruct n as [| n]; [reflexivity |]). lia. }
  rewrite <- (Z2Nat.id z) by lia. apply Hn. lia.
Qed.

Lemma arrayToTimestamp_fields h m sec :
  0 <= m <= 60 -> 0 <= sec <= 60 ->
  arrayToTimestamp [IntV h; IntV m; IntV sec] = renderTimestamp h m sec.
Proof.
  intros Hm Hs. unfold arrayToTimestamp, renderTimestamp. simpl.
  by rewrite !pad_twoDigits.
Qed.




End Rendering.

Section Formatting.

Implicit Types (a n : number) (s q : Q).

Lemma durationToTimestamp_nonneg a s :
  denotes a s -> (0 <= s)%Q ->
  durationToTimestamp a
    = renderTimestamp (specHours s) (specMinutes s) (specSeconds s).
Proof.
  intros Ha Hs. unfold durationToTimestamp.
  destruct (qmod_3600_range s) as [H1 H2].
  destruct (qmod_60_range s) as [H3 H4].
  rewrite (Math_floor_denotes _ (s / 3600)) by (apply ndiv_denotes; [done | lra]).
  rewrite (Math_floor_denotes _ (qmod s 3600 / 60)).
  2:{ apply ndiv_denotes; [| lra]. apply nrem_denotes; [done | done | lra]. }
  rewrite (Math_round_denotes _ (qmod s 60))
    by (apply nrem_denotes; [done | done | lra]).
  rewrite <- (roundHalfAway_nonneg (qmod s 60)) by done.
  apply arrayToTimestamp_fields.
  - pose proof (specMinutes_range s) as H. lia.
  - apply (specSeconds_range s).
Qed.

Lemma outside_spec q :
  nlt (Fin q) (Fin 0) || ngt (Fin q) (Fin 100) = true <-> (q < 0 \/ 100 < q)%Q.
Proof.
  unfold ngt, nlt. rewrite orb_true_iff, !negb_true_iff.
  rewrite <- !not_true_iff_false, !Qle_bool_iff.
  split; (intros [H | H]; [left | right]); lra.
Qed.

Lemma inside_spec q :
  nlt (Fin q) (Fin 0) || ngt (Fin q) (Fin 100) = false <-> (0 <= q <= 100)%Q.
Proof.
  rewrite <- not_true_iff_false, outside_spec. split; [intros H | intros H [? | ?]]; lra.
Qed.

(** The text of a number of seconds that is not negative, as
    [percentageOfTimestamp] computes it. *)
Lemma fields_of_seconds a d :
  denotes a d -> (0 <= d)%Q ->
  arrayToTimestamp
    [Math_floor (ndiv a (Fin 3600));
     Math_floor (ndiv (nrem a (Fin 3600)) (Fin 60));
     Math_round (nrem (nrem a (Fin 3600)) (Fin 60))]
  = renderTimestamp (specHours d) (specMinutes d) (specSeconds d).
Proof.
  intros HD Hd.
  destruct (qmod_3600_range d) as [H1 H2].
  destruct (qmod_60_range d) as [H3 H4].
  rewrite (Math_floor_denotes _ (d / 3600)) by (apply ndiv_denotes; [done | lra]).
  rewrite (Math_floor_denotes _ (qmod d 3600 / 60)).
  2:{ apply ndiv_denotes; [| lra]. apply nrem_denotes; [done | done | lra]. }
  rewrite (Math_round_denotes _ (qmod d 60)).
  2:{ apply (denotes_eq _ (qmod (qmod d 3600) 60)); [| by apply qmod_3600_60].
      apply nrem_denotes; [| done | lra]. apply nrem_denotes; [done | done | lra]. }
  rewrite <- (roundHalfAway_nonneg (qmod d 60)) by done.
  apply arrayToTimestamp_fields.
  - pose proof (specMinutes_range d) as H. lia.
  - apply (specSeconds_range d).
Qed.

Lemma percentageOfTimestamp_nonneg a s q :
  denotes a s -> (0 <= s)%Q -> (0 <= q <= 100)%Q ->
  let d := roundDouble (s * roundDouble (q / 100)) in
  percentageOfTimestamp a (Fin q)
    = renderTimestamp (specHours d) (specMinutes d) (specSeconds d).
Proof.
  intros Ha Hs Hq d. unfold percentageOfTimestamp.
  rewrite (proj2 (inside_spec q) Hq).
  apply fields_of_seconds.
  - apply nmul_denotes; [done |]. apply fdiv_denotes; [apply denotes_Fin | lra].
  - apply roundDouble_nonneg, Qmult_le_0_compat; [done |].
    apply roundDouble_nonneg. qconst. lra.
Qed.

(** The rounded product of a total and a percentage within 0..100 lies
    between 0 and the total, rounded. *)
Lemma percentage_product_bounds s q :
  (0 <= s)%Q -> (0 <= q <= 100)%Q ->
  let d := roundDouble (s * roundDouble (q / 100)) in
  (0 <= d)%Q /\ (d <= roundDouble s)%Q.
Proof.
  intros Hs Hq d.
  assert (Hf0 : (0 <= roundDouble (q / 100))%Q).
  { apply roundDouble_nonneg. qconst. lra. }
  assert (Hf1 : (roundDouble (q / 100) <= 1)%Q).
  { assert (H1 : roundDouble 1 = 1%Q) by (vm_compute; reflexivity).
    apply Qle_trans with (roundDouble 1); [| rewrite H1; lra].
    apply roundDouble_mono; qconst; lra. }
  assert (Hp0 : (0 <= s * roundDouble (q / 100))%Q)
    by by apply Qmult_le_0_compat.
  assert (Hp1 : (0 <= s * (1 - roundDouble (q / 100)))%Q)
    by (apply Qmult_le_0_compat; [done | lra]).
  split; [by apply roundDouble_nonneg |].
  apply roundDouble_mono; [done |]. lra.
Qed.

(** At 100 percent the product is the total itself, when the total is a
    double. *)
Lemma percentageOfTimestamp_full a s :
  denotes a s -> (0 <= s)%Q -> isDouble s ->
  percentageOfTimestamp a (Fin 100)
    = renderTimestamp (specHours s) (specMinutes s) (specSeconds s).
Proof.
  intros Ha Hs Hdouble. unfold percentageOfTimestamp.
  rewrite (proj2 (inside_spec 100)) by lra.
  apply fields_of_seconds; [| exact Hs].
  apply (denotes_eq _ (roundDouble (s * roundDouble (100 / 100)))).
  - apply nmul_denotes; [done |]. apply fdiv_denotes; [apply denotes_Fin | lra].
  - assert (H1 : roundDouble (100 / 100) = 1%Q) by (vm_compute; reflexivity).
    rewrite H1, (roundDouble_comp (s * 1) s) by lra. exact Hdouble.
Qed.

End Formatting.

(** C2.  The formatting does not carry: the seconds of 59.6 round to 60
    and stay in the seconds field, and so do those of 3599.5 beside 59
    minutes, where the claim has "1:00" and no field of 60.  The same
    holds on the double nearest to 59.6, and 3599.5 is a double. *)
Lemma format_emits_sixty_seconds :
  durationToTimestamp (Fin 59.6) <> "1:00"%string /\
  percentageOfTimestamp (Fin 59.6) (Fin 100) <> "1:00"%string /\
  durationToTimestamp (Fin 59.6) = "0:60"%string /\
  durationToTimestamp (Fin (roundDouble 59.6)) = "0:60"%string /\
  percentageOfTimestamp (Fin (roundDouble 59.6)) (Fin 100) = "0:60"%string /\
  durationToTimestamp (Fin 3599.5) = "59:60"%string /\
  isDouble 3599.5.
Proof.
  split; [vm_compute; discriminate |]. split; [vm_compute; discriminate |].
  split; [vm_compute; reflexivity |]. split; [vm_compute; reflexivity |].
  split; [vm_compute; reflexivity |]. split; vm_compute; reflexivity.
Qed.




(* ===================================================================== *)
(** ** Reading a timestamp back *)
(* ===================================================================== *)

Section RoundTrip.

Implicit Types (c a b : ascii) (m sec : list ascii).

Lemma isDigit_In c : isDigit c = true -> In c digitChars.
Proof.
  destruct c as [[] [] [] [] [] [] [] []]; intros H; try discriminate H;
    simpl; tauto.
Qed.

Lemma string_of_list_ascii_app (l1 l2 : list ascii) :
  string_of_list_ascii (l1 ++ l2)
    = (string_of_list_ascii l1 ++ string_of_list_ascii l2)%string.
Proof. induction l1 as [| c l1 IH]; [reflexivity |]. simpl. by rewrite IH. Qed.

Lemma one_digit_value a :
  In a digitChars ->
  0 <= decimalValue [a] <= 59 /\ decimal (decimalValue [a]) = String a EmptyString.
Proof.
  simpl. intros H.
  repeat (destruct H as [<- | H]; [split; [vm_compute; split; discriminate | reflexivity] |]).
  destruct H.
Qed.

Lemma two_digit_value a b :
  In a digitChars -> In b digitChars ->
  0 <= decimalValue [a; b] /\
  twoDigits (decimalValue [a; b]) = String a (String b EmptyString) /\
  (a <> "0"%char ->
   decimal (decimalValue [a; b]) = String a (String b EmptyString)).
Proof.
  simpl. intros Ha Hb.
  repeat (destruct Ha as [<- | Ha];
          [repeat (destruct Hb as [<- | Hb];
                   [split; [discriminate |];
                    split; [reflexivity |];
                    first [ intros _; reflexivity | intros Hn; by destruct Hn ] |]);
           destruct Hb |]).
  destruct Ha.
Qed.

Lemma minutes_canonical m :
  allDigits m ->
  length m = 1%nat \/ (length m = 2%nat /\ head m <> Some "0"%char) ->
  0 <= decimalValue m /\ decimal (decimalValue m) = string_of_list_ascii m.
Proof.
  intros Hd [Hl | [Hl Hh]].
  - destruct m as [| a [| ? ?]]; try discriminate.
    inversion Hd as [| ? ? Ha _]; subst.
    destruct (one_digit_value a (isDigit_In a Ha)) as [H1 H2].
    split; [lia | exact H2].
  - destruct m as [| a [| b [| ? ?]]]; try discriminate.
    inversion Hd as [| ? ? Ha Hd']; subst. inversion Hd' as [| ? ? Hb _]; subst.
    destruct (two_digit_value a b (isDigit_In a Ha) (isDigit_In b Hb))
      as (H1 & _ & H3).
    split; [exact H1 |]. apply H3. intros ->. by apply Hh.
Qed.

Lemma seconds_canonical sec :
  allDigits sec -> length sec = 2%nat ->
  0 <= decimalValue sec /\
  twoDigits (decimalValue sec) = string_of_list_ascii sec.
Proof.
  intros Hd Hl.
  destruct sec as [| a [| b [| ? ?]]]; try discriminate.
  inversion Hd as [| ? ? Ha Hd']; subst. inversion Hd' as [| ? ? Hb _]; subst.
  destruct (two_digit_value a b (isDigit_In a Ha) (isDigit_In b Hb))
    as (H1 & H2 & _).
  auto.
Qed.

(** The fields of a total below one hour. *)
Lemma spec_fields_below_hour (M S : Z) :
  0 <= M <= 59 -> 0 <= S <= 59 ->
  let s := inject_Z (toTotalSeconds 0 M S) in
  (0 <= s)%Q /\ specHours s = 0 /\ specMinutes s = M /\ specSeconds s = S.
Proof.
  intros HM HS s.
  assert (Hs : (s == 60 * inject_Z M + inject_Z S)%Q).
  { unfold s, toTotalSeconds. rewrite !inject_Z_plus, !inject_Z_mult.
    change (inject_Z 0) with 0%Q. change (inject_Z 3600) with 3600%Q.
    change (inject_Z 60) with 60%Q. lra. }
  assert (HMq : (0 <= inject_Z M /\ inject_Z M <= 59)%Q).
  { change 0%Q with (inject_Z 0). change 59%Q with (inject_Z 59).
    rewrite <- !Zle_Qle. lia. }
  assert (HSq : (0 <= inject_Z S /\ inject_Z S <= 59)%Q).
  { change 0%Q with (inject_Z 0). change 59%Q with (inject_Z 59).
    rewrite <- !Zle_Qle. lia. }
  assert (Hh : Qfloor (s / 3600) = 0).
  { apply Qfloor_unique; change (inject_Z 0) with 0%Q; qconst; lra. }
  assert (Hr : (qmod s 3600 == s)%Q).
  { unfold qmod. rewrite Hh. change (inject_Z 0) with 0%Q. lra. }
  assert (Hm : Qfloor (qmod s 3600 / 60) = M).
  { apply Qfloor_unique; qconst; lra. }
  assert (Hf : Qfloor (s / 60) = M).
  { apply Qfloor_unique; qconst; lra. }
  assert (Hr' : (qmod s 60 == inject_Z S)%Q).
  { unfold qmod. rewrite Hf. lra. }
  repeat split.
  - lra.
  - exact Hh.
  - exact Hm.
  - unfold specSeconds. rewrite roundHalfAway_nonneg by lra.
    apply Qfloor_unique; lra.
Qed.

End RoundTrip.

(** C7.  A two-part timestamp [M:SS] or [MM:SS] whose minutes and
    seconds are at most 59 and whose minutes are written without a
    leading zero is read back unchanged: formatting the total
    [hours*3600 + minutes*60 + seconds] of its fields gives the text
    itself. *)
Theorem roundtrip_two_part
    (text : string) (m sec : list ascii)
    (Hshape : list_ascii_of_string text = m ++ colon :: sec)
    (Hm : allDigits m)
    (Hlm : length m = 1%nat \/ (length m = 2%nat /\ head m <> Some "0"%char))
    (Hsec : allDigits sec) (Hlsec : length sec = 2%nat)
    (Hmr : decimalValue m <= 59) (Hsr : decimalValue sec <= 59) :
  let total := toTotalSeconds 0 (decimalValue m) (decimalValue sec) in
  isValidHMSFormat text = true /\
  timestampToArray text = [IntV 0; IntV (decimalValue m); IntV (decimalValue sec)] /\
  timestampTarget text = Some (IntV total) /\
  durationToTimestamp (ofInt (IntV total)) = text /\
  percentageOfTimestamp (ofInt (IntV total)) (Fin 100) = text.
Proof.
  intros total.
  destruct (minutes_canonical m Hm Hlm) as [HM0 HMs].
  destruct (seconds_canonical sec Hsec Hlsec) as [HS0 HSs].
  assert (Hvalid : isValidHMSFormat text = true).
  { apply isValidHMSFormat_spec. right. exists m, sec.
    repeat split; try done. destruct Hlm as [? | [? _]]; auto. }
  assert (Harr : timestampToArray text
                 = [IntV 0; IntV (decimalValue m); IntV (decimalValue sec)])
    by by apply timestampToArray_two.
  destruct (spec_fields_below_hour (decimalValue m) (decimalValue sec))
    as (Hnn & Hh & Hmin & Hs); [lia | lia |].
  fold total in Hnn, Hh, Hmin, Hs.
  assert (Hout : renderTimestamp (specHours (inject_Z total))
                   (specMinutes (inject_Z total)) (specSeconds (inject_Z total))
                 = text).
  { rewrite Hh, Hmin, Hs. unfold renderTimestamp. simpl.
    rewrite HMs, HSs, <- (string_of_list_ascii_of_string text), Hshape.
    by rewrite string_of_list_ascii_app. }
  split; [exact Hvalid |]. split; [exact Harr |]. split; [| split].
  - unfold timestampTarget. rewrite Hvalid, Harr. reflexivity.
  - simpl ofInt. etransitivity; [| exact Hout].
    apply durationToTimestamp_nonneg; [apply denotes_Fin | exact Hnn].
  - simpl ofInt. etransitivity; [| exact Hout].
    apply percentageOfTimestamp_full; [apply denotes_Fin | exact Hnn |].
    apply roundDouble_Z. change (2 ^ 53) with 9007199254740992.
    unfold total, toTotalSeconds. lia.
Qed.

Lemma roundtrip_two_part_witness :
  isValidHMSFormat "12:05" = true /\
  timestampToArray "12:05" = [IntV 0; IntV 12; IntV 5] /\
  timestampTarget "12:05" = Some (IntV 725) /\
  durationToTimestamp (Fin 725) = "12:05"%string /\
  percentageOfTimestamp (Fin 725) (Fin 100) = "12:05"%string.
Proof.
  apply (roundtrip_two_part "12:05"
           (list_ascii_of_string "12") (list_ascii_of_string "05")).
  - reflexivity.
  - repeat constructor.
  - right. split; [reflexivity | discriminate].
  - repeat constructor.
  - reflexivity.
  - discriminate.
  - discriminate.
Defined.

(** "05:07" has the two-part shape and fields within 0..59, and is
    formatted back as "5:07". *)
Lemma roundtrip_drops_leading_zero :
  shapeMS (list_ascii_of_string "05:07") /\
  timestampToArray "05:07" = [IntV 0; IntV 5; IntV 7] /\
  timestampTarget "05:07" = Some (IntV (toTotalSeconds 0 5 7)) /\
  durationToTimestamp (ofInt (IntV (toTotalSeconds 0 5 7))) = "5:07"%string /\
  durationToTimestamp (ofInt (IntV (toTotalSeconds 0 5 7))) <> "05:07"%string.
Proof.
  split.
  - exists (list_ascii_of_string "05"), (list_ascii_of_string "07").
    repeat split; auto; repeat constructor.
  - repeat split; discriminate.
Qed.

(* ===================================================================== *)
(** ** Decimal digits and their value *)
(* ===================================================================== *)

Section DecimalDigits.

Implicit Types (d : Decimal.uint) (p : positive) (s : list ascii) (z : Z).

Lemma decimalValue_acc d p :
  fold_left (fun acc c => 10 * acc + digitValue c) (uintChars d) (Z.pos p)
  = Z.pos (Pos.of_uint_acc d p).
Proof.
  revert p. unfold uintChars.
  induction d as [| d IH | d IH | d IH | d IH | d IH
                  | d IH | d IH | d IH | d IH | d IH];
    intros p; [reflexivity | ..];
    cbn [NilEmpty.string_of_uint list_ascii_of_string fold_left Pos.of_uint_acc];
    rewrite <- IH; f_equal;
    match goal with
    | |- context [digitValue ?c] =>
        let v := eval vm_compute in (digitValue c) in
        change (digitValue c) with v
    end; lia.
Qed.

Lemma decimalValue_uint d : decimalValue (uintChars d) = Z.of_N (Pos.of_uint d).
Proof.
  unfold decimalValue, uintChars.
  induction d as [| d IH | d IH | d IH | d IH | d IH
                  | d IH | d IH | d IH | d IH | d IH];
    [reflexivity | exact IH | ..];
    cbn [NilEmpty.string_of_uint list_ascii_of_string fold_left Pos.of_uint];
    apply (decimalValue_acc d).
Qed.

Lemma uintChars_digits d : allDigits (uintChars d).
Proof.
  induction d; unfold uintChars in *; simpl; constructor; auto.
Qed.

Lemma digits_uint s : allDigits s -> exists d, uintChars d = s.
Proof.
  induction 1 as [| c s Hc _ [d <-]]; [by exists Decimal.Nil |].
  apply isDigit_In in Hc. simpl in Hc.
  destruct Hc as [<- | [<- | [<- | [<- | [<- | [<- | [<- | [<- | [<- | [<- | []]]]]]]]]]].
  - by exists (Decimal.D0 d).
  - by exists (Decimal.D1 d).
  - by exists (Decimal.D2 d).
  - by exists (Decimal.D3 d).
  - by exists (Decimal.D4 d).
  - by exists (Decimal.D5 d).
  - by exists (Decimal.D6 d).
  - by exists (Decimal.D7 d).
  - by exists (Decimal.D8 d).
  - by exists (Decimal.D9 d).
Qed.

Lemma decimalValue_nonneg s : allDigits s -> 0 <= decimalValue s.
Proof.
  intros [d <-]%digits_uint. rewrite decimalValue_uint. lia.
Qed.

Lemma digitValue_range c : isDigit c = true -> 0 <= digitValue c <= 9.
Proof.
  unfold isDigit, digitValue. intros [H1 H2]%andb_prop.
  apply Nat.leb_le in H1, H2. lia.
Qed.

(** [n] digits write a number below [10 ^ n]. *)
Lemma decimalValue_bound s :
  allDigits s -> decimalValue s < 10 ^ Z.of_nat (length s).
Proof.
  intros Hs. unfold decimalValue.
  assert (H : forall acc, 0 <= acc ->
            fold_left (fun acc c => 10 * acc + digitValue c) s acc
            < (acc + 1) * 10 ^ Z.of_nat (length s)).
  { induction Hs as [| c s Hc Hs IH]; intros acc Hacc; simpl length.
    - simpl. lia.
    - simpl fold_left. apply digitValue_range in Hc.
      specialize (IH (10 * acc + digitValue c) ltac:(lia)).
      rewrite Nat2Z.inj_succ, Z.pow_succ_r by lia.
      assert (Hp : 0 < 10 ^ Z.of_nat (length s)) by (apply Z.pow_pos_nonneg; lia).
      nia. }
  specialize (H 0 ltac:(lia)). lia.
Qed.

Lemma length_list_ascii_of_string (t : string) :
  length (list_ascii_of_string t) = String.length t.
Proof. induction t as [| c t IH]; simpl; congruence. Qed.

Lemma string_of_uint_nonnil d :
  d <> Decimal.Nil ->
  NilZero.string_of_uint d = NilEmpty.string_of_uint d /\ uintChars d <> [].
Proof. destruct d; intros H; try done; split; (reflexivity || discriminate). Qed.

(** Reading the digits of a non-negative integer gives the integer. *)
Lemma decimal_chars z :
  0 <= z ->
  let s := list_ascii_of_string (decimal z) in
  allDigits s /\ s <> [] /\ decimalValue s = z.
Proof.
  intros Hz. destruct z as [| p | p]; [| | lia].
  - simpl. repeat split; [repeat constructor | discriminate].
  - unfold decimal. cbn [Z.to_int NilZero.string_of_int].
    destruct (string_of_uint_nonnil (Pos.to_uint p) (Unsigned.to_uint_nonnil p))
      as [-> Hne].
    fold (uintChars (Pos.to_uint p)). cbv zeta.
    split; [apply uintChars_digits |]. split; [exact Hne |].
    by rewrite decimalValue_uint, Unsigned.of_to.
Qed.

(** Printing the value of a numeral without a leading zero gives the
    numeral. *)
Lemma decimal_of_digits s :
  allDigits s -> s <> [] -> head s <> Some "0"%char ->
  0 < decimalValue s /\ decimal (decimalValue s) = string_of_list_ascii s.
Proof.
  intros [d <-]%digits_uint Hne Hhd.
  assert (Hd : d <> Decimal.Nil) by (intros ->; by apply Hne).
  assert (Hn : Decimal.unorm d = d).
  { destruct d; try reflexivity; [done | exfalso; by apply Hhd]. }
  assert (Hq : exists q, Pos.of_uint d = Npos q).
  { destruct d; try (eexists; reflexivity); [done | exfalso; by apply Hhd]. }
  destruct Hq as [q Hq].
  pose proof (Unsigned.to_of d) as Hto. rewrite Hq, Hn in Hto. simpl in Hto.
  rewrite decimalValue_uint, Hq. split; [reflexivity |].
  unfold decimal. cbn [Z.of_N Z.to_int NilZero.string_of_int]. rewrite Hto.
  destruct (string_of_uint_nonnil d Hd) as [-> _].
  unfold uintChars. by rewrite string_of_list_ascii_of_string.
Qed.

End DecimalDigits.

(* ===================================================================== *)
(** ** Formatted text read back by the timestamp handler *)
(* ===================================================================== *)

Section ReadBack.

Implicit Types (h m sec z : Z) (s : Q).

Lemma list_ascii_of_string_app (a b : string) :
  list_ascii_of_string (a ++ b)%string
  = list_ascii_of_string a ++ list_ascii_of_string b.
Proof. induction a as [| c a IH]; [reflexivity |]. simpl. by rewrite IH. Qed.

Lemma twoDigits_chars z :
  0 <= z <= 60 ->
  let l := list_ascii_of_string (twoDigits z) in
  allDigits l /\ length l = 2%nat /\ decimalValue l = z.
Proof.
  intros H.
  assert (Hn : forall n, (n < 61)%nat ->
               let l := list_ascii_of_string (twoDigits (Z.of_nat n)) in
               allDigits l /\ length l = 2%nat /\ decimalValue l = Z.of_nat n).
  { intros n Hn.
    do 61 (destruct n as [| n];
           [split; [repeat constructor | split; reflexivity] |]).
    lia. }
  rewrite <- (Z2Nat.id z) by lia. apply Hn. lia.
Qed.

Lemma minutes_chars z :
  0 <= z <= 59 ->
  let l := list_ascii_of_string (decimal z) in
  allDigits l /\ (length l = 1%nat \/ length l = 2%nat) /\ decimalValue l = z.
Proof.
  intros H.
  assert (Hn : forall n, (n < 60)%nat ->
               let l := list_ascii_of_string (decimal (Z.of_nat n)) in
               allDigits l /\ (length l = 1%nat \/ length l = 2%nat) /\
               decimalValue l = Z.of_nat n).
  { intros n Hn.
    do 60 (destruct n as [| n];
           [split; [repeat constructor
                   | split; [first [by left | by right] | reflexivity]] |]).
    lia. }
  rewrite <- (Z2Nat.id z) by lia. apply Hn. lia.
Qed.

(** A rendered timestamp passes the validator and is split into the
    fields it was rendered from. *)
Lemma renderTimestamp_read h m sec :
  0 <= h -> 0 <= m <= 59 -> 0 <= sec <= 60 ->
  let text := renderTimestamp h m sec in
  isValidHMSFormat text = true /\
  timestampToArray text = [IntV h; IntV m; IntV sec] /\
  timestampTarget text = Some (IntV (toTotalSeconds h m sec)).
Proof.
  intros Hh Hm Hs text.
  destruct (twoDigits_chars sec Hs) as (Hsd & Hsl & Hsv).
  assert (Hcore : isValidHMSFormat text = true /\
                  timestampToArray text = [IntV h; IntV m; IntV sec]).
  { unfold text, renderTimestamp. destruct (0 <? h) eqn:Hpos.
    - apply Z.ltb_lt in Hpos.
      destruct (decimal_chars h Hh) as (Hhd & Hhn & Hhv).
      destruct (twoDigits_chars m) as (Hmd & Hml & Hmv); [lia |].
      assert (Heq : list_ascii_of_string
                      (decimal h ++ sep ++ twoDigits m ++ sep ++ twoDigits sec)
                    = list_ascii_of_string (decimal h)
                        ++ colon :: (list_ascii_of_string (twoDigits m)
                                       ++ colon :: list_ascii_of_string (twoDigits sec))).
      { by rewrite !list_ascii_of_string_app. }
      split.
      + apply isValidHMSFormat_spec. left. rewrite Heq.
        eexists _, _, _. split; [reflexivity |]. auto 10.
      + rewrite (timestampToArray_three _ _ _ _ Heq) by done.
        by rewrite Hhv, Hmv, Hsv.
    - apply Z.ltb_ge in Hpos. assert (h = 0) as -> by lia.
      destruct (minutes_chars m Hm) as (Hmd & Hml & Hmv).
      assert (Heq : list_ascii_of_string (decimal m ++ sep ++ twoDigits sec)
                    = list_ascii_of_string (decimal m)
                        ++ colon :: list_ascii_of_string (twoDigits sec)).
      { by rewrite !list_ascii_of_string_app. }
      split.
      + apply isValidHMSFormat_spec. right. rewrite Heq.
        eexists _, _. split; [reflexivity |]. auto 10.
      + rewrite (timestampToArray_two _ _ _ Heq) by done.
        by rewrite Hmv, Hsv. }
  destruct Hcore as [Hv Ha]. split; [exact Hv |]. split; [exact Ha |].
  unfold timestampTarget. rewrite Hv, Ha. reflexivity.
Qed.

Lemma Qfloor_60 s :
  Qfloor (s / 60) = 60 * Qfloor (s / 3600) + Qfloor (qmod s 3600 / 60).
Proof.
  destruct (Qfloor_bounds (qmod s 3600 / 60)) as [H1 H2].
  apply Qfloor_unique; rewrite inject_Z_plus, inject_Z_mult;
    change (inject_Z 60) with 60%Q; unfold qmod in *; qconst; lra.
Qed.

(** The fields of a non-negative duration add up to the duration rounded
    to the nearest second, a tie going up. *)
Lemma fields_total s :
  (0 <= s)%Q ->
  toTotalSeconds (specHours s) (specMinutes s) (specSeconds s)
  = Qfloor (s + (1 # 2)).
Proof.
  intros Hs. unfold toTotalSeconds, specHours, specMinutes, specSeconds.
  destruct (qmod_60_range s) as [H1 H2].
  rewrite roundHalfAway_nonneg by exact H1.
  assert (Hsec : Qfloor (qmod s 60 + (1 # 2))
                 = Qfloor (s + (1 # 2)) - 60 * Qfloor (s / 60)).
  { destruct (Qfloor_bounds (s + (1 # 2))) as [H3 H4].
    apply Qfloor_unique;
      unfold Z.sub; rewrite inject_Z_plus, inject_Z_opp, inject_Z_mult;
      change (inject_Z 60) with 60%Q; unfold qmod; lra. }
  rewrite Hsec, (Qfloor_60 s). lia.
Qed.

(** The fields of an exact total with minutes and seconds below 60. *)
Lemma spec_fields (H M S : Z) :
  0 <= H -> 0 <= M <= 59 -> 0 <= S <= 59 ->
  let s := inject_Z (toTotalSeconds H M S) in
  (0 <= s)%Q /\ specHours s = H /\ specMinutes s = M /\ specSeconds s = S.
Proof.
  intros HH HM HS s.
  assert (Hs : (s == 3600 * inject_Z H + 60 * inject_Z M + inject_Z S)%Q).
  { unfold s, toTotalSeconds. rewrite !inject_Z_plus, !inject_Z_mult.
    change (inject_Z 3600) with 3600%Q. change (inject_Z 60) with 60%Q. lra. }
  assert (HHq : (0 <= inject_Z H)%Q).
  { change 0%Q with (inject_Z 0). rewrite <- Zle_Qle. lia. }
  assert (HMq : (0 <= inject_Z M /\ inject_Z M <= 59)%Q).
  { change 0%Q with (inject_Z 0). change 59%Q with (inject_Z 59).
    rewrite <- !Zle_Qle. lia. }
  assert (HSq : (0 <= inject_Z S /\ inject_Z S <= 59)%Q).
  { change 0%Q with (inject_Z 0). change 59%Q with (inject_Z 59).
    rewrite <- !Zle_Qle. lia. }
  assert (Hh : Qfloor (s / 3600) = H).
  { apply Qfloor_unique; qconst; lra. }
  assert (Hm : Qfloor (qmod s 3600 / 60) = M).
  { apply Qfloor_unique; unfold qmod; rewrite Hh; qconst; lra. }
  assert (Hf : Qfloor (s / 60) = 60 * H + M).
  { rewrite (Qfloor_60 s), Hh, Hm. reflexivity. }
  repeat split.
  - lra.
  - exact Hh.
  - exact Hm.
  - unfold specSeconds.
    assert (Hr : (qmod s 60 == inject_Z S)%Q).
    { unfold qmod. rewrite Hf, inject_Z_plus, inject_Z_mult.
      change (inject_Z 60) with 60%Q. lra. }
    rewrite roundHalfAway_nonneg by lra.
    apply Qfloor_unique; lra.
Qed.

End ReadBack.

(* ===================================================================== *)
(** ** Further properties of the timestamp helpers *)
(* ===================================================================== *)

(** X1.  A three-part timestamp [H:MM:SS] whose hours are written without
    a leading zero, whose minutes and seconds are at most 59 and whose
    total is below 2^53 seconds (so that it is a double, computed without
    rounding) is read back unchanged: formatting the total of its fields
    gives the text itself. *)
Theorem roundtrip_three_part
    (text : string) (h m sec : list ascii)
    (Hshape : list_ascii_of_string text = h ++ colon :: (m ++ colon :: sec))
    (Hh : allDigits h) (Hne : h <> []) (Hlead : head h <> Some "0"%char)
    (Hm : allDigits m) (Hlm : length m = 2%nat)
    (Hsec : allDigits sec) (Hlsec : length sec = 2%nat)
    (Hmr : decimalValue m <= 59) (Hsr : decimalValue sec <= 59)
    (Hbound : toTotalSeconds (decimalValue h) (decimalValue m) (decimalValue sec)
              < 2 ^ 53) :
  let total := toTotalSeconds (decimalValue h) (decimalValue m) (decimalValue sec) in
  isValidHMSFormat text = true /\
  timestampTarget text = Some (IntV total) /\
  durationToTimestamp (ofInt (IntV total)) = text /\
  percentageOfTimestamp (ofInt (IntV total)) (Fin 100) = text.
Proof.
  intros total.
  destruct (decimal_of_digits h Hh Hne Hlead) as [HH0 HHs].
  destruct (seconds_canonical m Hm Hlm) as [HM0 HMs].
  destruct (seconds_canonical sec Hsec Hlsec) as [HS0 HSs].
  assert (Hvalid : isValidHMSFormat text = true).
  { apply isValidHMSFormat_spec. left. exists h, m, sec. auto 10. }
  assert (Harr : timestampToArray text
                 = [IntV (decimalValue h); IntV (decimalValue m);
                    IntV (decimalValue sec)])
    by by apply timestampToArray_three.
  destruct (spec_fields (decimalValue h) (decimalValue m) (decimalValue sec))
    as (Hnn & Hhr & Hmin & Hs); [lia | lia | lia |].
  fold total in Hnn, Hhr, Hmin, Hs.
  assert (Hout : renderTimestamp (specHours (inject_Z total))
                   (specMinutes (inject_Z total)) (specSeconds (inject_Z total))
                 = text).
  { rewrite Hhr, Hmin, Hs. unfold renderTimestamp.
    apply Z.ltb_lt in HH0. rewrite HH0.
    rewrite HHs, HMs, HSs, <- (string_of_list_ascii_of_string text), Hshape.
    rewrite !string_of_list_ascii_app. simpl.
    by rewrite !string_of_list_ascii_app. }
  split; [exact Hvalid |]. split; [| split].
  - unfold timestampTarget. rewrite Hvalid, Harr. reflexivity.
  - simpl ofInt. etransitivity; [| exact Hout].
    apply durationToTimestamp_nonneg; [apply denotes_Fin | exact Hnn].
  - simpl ofInt. etransitivity; [| exact Hout].
    apply percentageOfTimestamp_full; [apply denotes_Fin | exact Hnn |].
    apply roundDouble_Z. split; [| exact Hbound].
    rewrite Zle_Qle. exact Hnn.
Qed.

Lemma roundtrip_three_part_witness :
  isValidHMSFormat "12:00:59" = true /\
  timestampTarget "12:00:59" = Some (IntV 43259) /\
  durationToTimestamp (Fin 43259) = "12:00:59"%string /\
  percentageOfTimestamp (Fin 43259) (Fin 100) = "12:00:59"%string.
Proof.
  apply (roundtrip_three_part "12:00:59" (list_ascii_of_string "12")
           (list_ascii_of_string "00") (list_ascii_of_string "59"));
    try reflexivity; try discriminate; repeat constructor.
Defined.



(** X3.  For a total [0 <= t <= 2^53] and a percentage [q] within 0..100
    the text of [percentageOfTimestamp] passes the validator and is read
    back by the timestamp handler as the product the code computes, the
    double nearest to [t] times the double nearest to [q / 100], rounded
    to the nearest second, a tie going up; that number of seconds is
    at most 2^53.  (The double may lie below the exact product: 58 % of 25
    seconds is 14.499999999999998 and reads back as 14.) *)
Theorem percentage_text_reads_back (t q : Q)
    (Ht : (0 <= t)%Q) (Hbound : (t <= inject_Z (2 ^ 53))%Q)
    (Hq : (0 <= q <= 100)%Q) :
  let d := roundDouble (t * roundDouble (q / 100)) in
  let text := percentageOfTimestamp (Fin t) (Fin q) in
  isValidHMSFormat text = true /\
  timestampTarget text = Some (IntV (Qfloor (d + (1 # 2)))) /\
  0 <= Qfloor (d + (1 # 2)) <= 2 ^ 53.
Proof.
  intros d text.
  destruct (percentage_product_bounds t q Ht Hq) as [Hd Hdt]. fold d in Hd, Hdt.
  pose proof (percentageOfTimestamp_nonneg (Fin t) t q (denotes_Fin t) Ht Hq)
    as Hfmt.
  cbv zeta in Hfmt. fold d text in Hfmt.
  destruct (renderTimestamp_read (specHours d) (specMinutes d) (specSeconds d))
    as (Hvalid & _ & Htarget).
  { by apply specHours_nonneg. }
  { apply specMinutes_range. }
  { apply specSeconds_range. }
  rewrite <- Hfmt, (fields_total _ Hd) in *.
  split; [exact Hvalid |]. split; [exact Htarget |].
  assert (Hmax : (roundDouble t <= inject_Z (2 ^ 53))%Q).
  { assert (H53 : roundDouble (inject_Z (2 ^ 53)) = inject_Z (2 ^ 53))
      by (vm_compute; reflexivity).
    rewrite <- H53. by apply roundDouble_mono. }
  assert (Hr : 0 <= Qfloor (d + (1 # 2)) < 2 ^ 53 + 1); [| lia].
  apply Qfloor_range.
  - change (inject_Z 0) with 0%Q. lra.
  - rewrite inject_Z_plus. change (inject_Z 1) with 1%Q. lra.
Qed.

Lemma percentage_text_reads_back_witness :
  isValidHMSFormat (percentageOfTimestamp (Fin 25) (Fin 58)) = true /\
  percentageOfTimestamp (Fin 25) (Fin 58) = "0:14"%string /\
  timestampTarget (percentageOfTimestamp (Fin 25) (Fin 58)) = Some (IntV 14).
Proof.
  destruct (percentage_text_reads_back 25 58) as (H1 & H2 & _);
    [discriminate | discriminate | split; discriminate |].
  split; [exact H1 |]. split; [vm_compute; reflexivity |].
  etransitivity; [exact H2 |]. vm_compute. reflexivity.
Defined.

(** X4.  A text of at most 18 characters the validator accepts (hours
    of at most twelve digits, so that the total is computed without
    rounding) always gives the timestamp handler a whole, non-negative
    number of seconds below 2^53, never [NaN]; on a page with a video
    the click arms the scheduler for exactly that number. *)
Theorem accepted_timestamp_target
    (w : World) (text : string) (video : nat)
    (Hvalid : isValidHMSFormat text = true)
    (Hlength : (String.length text <= 18)%nat)
    (Hslot : slotAgrees w)
    (Hpanel : panel w = Some (mkPanel text))
    (Hdoc : findVideo w = Some video) :
  exists z, 0 <= z < 2 ^ 53 /\
            timestampTarget text = Some (IntV z) /\
            Armed (Fin (inject_Z z)) (clickChosenTimestamp w) /\
            pauseCalls (clickChosenTimestamp w) = pauseCalls w.
Proof.
  assert (Ht : exists z, 0 <= z < 2 ^ 53 /\ timestampTarget text = Some (IntV z)).
  { unfold timestampTarget. rewrite Hvalid.
    rewrite <- length_list_ascii_of_string in Hlength.
    change (2 ^ 53) with 9007199254740992.
    apply isValidHMSFormat_spec in Hvalid
      as [(h & m & sec & Heq & Hh & _ & Hm & Hlm & Hs & Hls)
         | (m & sec & Heq & Hm & Hlm & Hs & Hls)].
    - rewrite (timestampToArray_three text h m sec Heq Hh Hm Hs).
      pose proof (decimalValue_nonneg h Hh). pose proof (decimalValue_nonneg m Hm).
      pose proof (decimalValue_nonneg sec Hs).
      pose proof (decimalValue_bound h Hh) as Bh.
      pose proof (decimalValue_bound m Hm) as Bm.
      pose proof (decimalValue_bound sec Hs) as Bs.
      rewrite Hlm in Bm. rewrite Hls in Bs.
      change (10 ^ Z.of_nat 2) with 100 in Bm, Bs.
      rewrite Heq, length_app in Hlength. simpl length in Hlength.
      rewrite length_app in Hlength. simpl length in Hlength.
      assert (Hp : 10 ^ Z.of_nat (length h) <= 10 ^ 12)
        by (apply Z.pow_le_mono_r; lia).
      change (10 ^ 12) with 1000000000000 in Hp.
      eexists. split; [| reflexivity]. lia.
    - rewrite (timestampToArray_two text m sec Heq Hm Hs).
      pose proof (decimalValue_nonneg m Hm). pose proof (decimalValue_nonneg sec Hs).
      pose proof (decimalValue_bound m Hm) as Bm.
      pose proof (decimalValue_bound sec Hs) as Bs.
      rewrite Hls in Bs. change (10 ^ Z.of_nat 2) with 100 in Bs.
      assert (Hp : 10 ^ Z.of_nat (length m) <= 10 ^ 2)
        by (apply Z.pow_le_mono_r; lia).
      change (10 ^ 2) with 100 in Hp.
      eexists. split; [| reflexivity]. lia. }
  destruct Ht as (z & Hz & Ht). exists z.
  split; [exact Hz |]. split; [exact Ht |].
  unfold clickChosenTimestamp. rewrite Hpanel. simpl timestampInput. rewrite Ht.
  split; [by eapply startPauseTimer_Armed | apply startPauseTimer_pauseCalls].
Qed.

Lemma accepted_timestamp_target_witness :
  let w := step (EvTypeTimestamp "1:75") panelPage in
  exists z, 0 <= z < 2 ^ 53 /\
            timestampTarget "1:75" = Some (IntV z) /\
            Armed (Fin (inject_Z z)) (clickChosenTimestamp w) /\
            pauseCalls (clickChosenTimestamp w) = pauseCalls w.
Proof.
  intros w.
  apply (accepted_timestamp_target w "1:75" 7%nat);
    [reflexivity | simpl; lia | reflexivity | reflexivity | reflexivity].
Defined.

(* ===================================================================== *)
(** ** Further properties of the scheduler and the panel *)
(* ===================================================================== *)

Section SchedulerFrames.

Implicit Types (w : World) (t : number) (es : list event) (e : event).

Lemma attachPanelListeners_scheduler w :
  pauseIntervalId (attachPanelListeners w) = pauseIntervalId w /\
  intervals (attachPanelListeners w) = intervals w /\
  nextTimer (attachPanelListeners w) = nextTimer w /\
  videos (attachPanelListeners w) = videos w /\
  docVideo (attachPanelListeners w) = docVideo w /\
  pauseCalls (attachPanelListeners w) = pauseCalls w.
Proof.
  unfold attachPanelListeners.
  destruct (panel w); [| done].
  destruct (findVideo w) as [video|]; [| done].
  destruct (videos w !! video); done.
Qed.

Lemma injectPanel_scheduler w :
  pauseIntervalId (injectPanel w) = pauseIntervalId w /\
  intervals (injectPanel w) = intervals w /\
  nextTimer (injectPanel w) = nextTimer w /\
  videos (injectPanel w) = videos w /\
  docVideo (injectPanel w) = docVideo w /\
  pauseCalls (injectPanel w) = pauseCalls w.
Proof.
  unfold injectPanel. destruct (panel w); [done |].
  apply (attachPanelListeners_scheduler (setPanel (Some (mkPanel EmptyString)) w)).
Qed.

Lemma keepsBelow_Armed e t w :
  passive e = true -> keepsBelow t e = true ->
  Armed t w -> belowTarget t w ->
  Armed t (step e w) /\ belowTarget t (step e w) /\
  pauseCalls (step e w) = pauseCalls w.
Proof.
  intros Hp Hk (id & video & Hs & Hi) Hb.
  assert (Ha : Armed t w) by (exists id, video; done).
  destruct e; try discriminate; simpl.
  - assert (Ht : tick id0 w = w); [| by rewrite Ht].
    unfold tick. rewrite Hi.
    destruct (decide (id0 = id)) as [-> | Hne].
    + rewrite lookup_singleton_eq. unfold callback. simpl.
      destruct (videos w !! video) as [v|] eqn:Hv; [| done].
      by rewrite (Hb video v Hv).
    + by rewrite lookup_singleton_ne.
  - split; [exact Ha |]. split; [| done].
    intros id' v'. simpl. rewrite lookup_alter.
    destruct (decide (video0 = id')) as [-> | Hne].
    + destruct (videos w !! id') as [v0|]; [| discriminate].
      intros [= <-]. simpl. simpl in Hk. by apply negb_true_iff.
    + apply Hb.
  - split; [exact Ha |]. split; [| done].
    intros id' v'. simpl. rewrite lookup_alter.
    destruct (decide (video0 = id')) as [-> | Hne].
    + destruct (videos w !! id') as [v0|] eqn:Hv0; [| discriminate].
      intros [= <-]. simpl. by apply (Hb id' v0).
    + apply Hb.
  - by split.
  - destruct (panel w); by split.
Qed.

Lemma keepsBelow_run es t w :
  forallb passive es = true -> forallb (keepsBelow t) es = true ->
  Armed t w -> belowTarget t w ->
  Armed t (run es w) /\ belowTarget t (run es w) /\
  pauseCalls (run es w) = pauseCalls w.
Proof.
  revert w. induction es as [| e es IH]; intros w Hp Hk Ha Hb; [done |].
  simpl in Hp, Hk.
  apply andb_prop in Hp as [He Hes]. apply andb_prop in Hk as [Hke Hkes].
  destruct (keepsBelow_Armed e t w He Hke Ha Hb) as (Ha' & Hb' & Hc).
  destruct (IH (step e w) Hes Hkes Ha' Hb') as (Ha'' & Hb'' & Hc').
  simpl. split; [done |]. split; [done | congruence].
Qed.

End SchedulerFrames.

(** X5.  The video is never paused early: while the scheduler is armed
    for [t] and no position of the page has reached [t], whatever ticks
    fire and wherever playback moves short of [t], no pause is issued
    and the scheduler stays armed. *)
Theorem never_pauses_before_target
    (t : number) (w : World) (es : list event)
    (Harmed : Armed t w) (Hbelow : belowTarget t w)
    (Hpassive : forallb passive es = true)
    (Hshort : forallb (keepsBelow t) es = true) :
  Armed t (run es w) /\
  belowTarget t (run es w) /\
  pauseCalls (run es w) = pauseCalls w.
Proof. by apply keepsBelow_run. Qed.

(** The video of 100.6 seconds with the pause scheduled at 101: playing
    to the end never pauses. *)
Lemma never_pauses_before_target_witness :
  let w := clickChosenTimestamp (injectPanel fractionalPage) in
  let es := [EvTick 1%nat; EvSeek 3%nat (Fin 50); EvTick 1%nat;
             EvSeek 3%nat (Fin 100.6); EvTick 1%nat] in
  Armed (Fin 101) (run es w) /\
  belowTarget (Fin 101) (run es w) /\
  pauseCalls (run es w) = pauseCalls w.
Proof.
  intros w es.
  apply (never_pauses_before_target (Fin 101) w es).
  - exists 1%nat, 3%nat. split; reflexivity.
  - intros id v.
    assert (Hvs : videos w = {[ 3%nat := fractionalVideo ]}) by reflexivity.
    rewrite Hvs. intros [<- <-]%lookup_singleton_Some. reflexivity.
  - reflexivity.
  - reflexivity.
Defined.

(** X6.  One call of [startPauseTimer] leads to at most one pause: over
    any ticks and changes of the page that follow, playback resumed past
    the target among them, at most one pause is issued, and it carries
    the target of the call. *)
Theorem one_pause_per_schedule
    (t : number) (w : World) (es : list event)
    (Hslot : slotAgrees w) (Hpassive : forallb passive es = true) :
  exists new,
    pauseCalls (run es (startPauseTimer t w)) = new ++ pauseCalls w /\
    (length new <= 1)%nat /\
    Forall (fun pc => pcTarget pc = t) new.
Proof.
  destruct (findVideo w) as [video|] eqn:Hv.
  - assert (Ha : Armed t (startPauseTimer t w)) by by eapply startPauseTimer_Armed.
    destruct (passive_run_Armed es t _ Hpassive Ha) as (new & Hn & Hf & Hl & _).
    exists new. rewrite Hn, startPauseTimer_pauseCalls. auto.
  - assert (Hi : Idle (startPauseTimer t w)).
    { rewrite startPauseTimer_absent by done.
      destruct (stopPauseTimer_Idle w Hslot). by split. }
    destruct (passive_run_Idle es _ Hpassive Hi) as [_ Hc].
    exists []. rewrite Hc, startPauseTimer_pauseCalls. auto.
Qed.

(** The target 60 is passed, the tick pauses, the user resumes and plays
    on: the later ticks do not pause again. *)
Lemma one_pause_per_schedule_witness :
  let es := [EvSeek 7%nat (Fin 61); EvTick 1%nat; EvPlay 7%nat;
             EvSeek 7%nat (Fin 90); EvTick 1%nat] in
  pauseCalls (run es (startPauseTimer (Fin 60) samplePage))
    = [mkPauseCall 1%nat 7%nat (Fin 60)] /\
  exists new,
    pauseCalls (run es (startPauseTimer (Fin 60) samplePage))
      = new ++ pauseCalls samplePage /\
    (length new <= 1)%nat /\
    Forall (fun pc => pcTarget pc = Fin 60) new.
Proof.
  intros es. split; [reflexivity |].
  apply (one_pause_per_schedule (Fin 60) samplePage es); reflexivity.
Defined.

(** X7.  In every state the script can reach at most one interval timer
    is active, and an active timer is the one the slot names. *)
Theorem at_most_one_timer (w : World) (Hreach : reachable w) :
  (size (intervals w) <= 1)%nat /\
  (forall id cb, intervals w !! id = Some cb -> pauseIntervalId w = Some id) /\
  (pauseIntervalId w = None -> intervals w = ∅).
Proof.
  pose proof (reachable_slotAgrees w Hreach) as Hs. unfold slotAgrees in Hs.
  destruct (pauseIntervalId w) as [id|].
  - destruct Hs as [cb ->]. split; [rewrite map_size_singleton; lia |].
    split; [| discriminate].
    by intros id' cb' [<- _]%lookup_singleton_Some.
  - rewrite Hs. split; [rewrite map_size_empty; lia |]. split; [| done].
    intros id cb. by rewrite lookup_empty.
Qed.

Lemma at_most_one_timer_witness :
  let w := run [EvSchedule (Fin 30); EvToggle; EvClickPartition (Fin 50);
                EvTypeTimestamp "2:00"; EvClickTimestamp]
             samplePage in
  (size (intervals w) <= 1)%nat /\
  (forall id cb, intervals w !! id = Some cb -> pauseIntervalId w = Some id) /\
  (pauseIntervalId w = None -> intervals w = ∅).
Proof.
  intros w. apply (at_most_one_timer w).
  exists {[ 7%nat := sampleVideo ]}, (Some 7%nat), None,
    [EvSchedule (Fin 30); EvToggle; EvClickPartition (Fin 50);
     EvTypeTimestamp "2:00"; EvClickTimestamp].
  reflexivity.
Defined.

(** X8.  Opening, closing and toggling the panel, the load-time answer
    of the storage and typing into the field leave the scheduler alone:
    the slot, the active timers, the videos and the pauses issued are
    unchanged, so a scheduled pause survives the panel being closed. *)
Theorem panel_events_leave_scheduler (e : event) (w : World)
    (Hpanel : panelOnly e = true) :
  pauseIntervalId (step e w) = pauseIntervalId w /\
  intervals (step e w) = intervals w /\
  nextTimer (step e w) = nextTimer w /\
  videos (step e w) = videos w /\
  docVideo (step e w) = docVideo w /\
  pauseCalls (step e w) = pauseCalls w.
Proof.
  destruct e; try discriminate; simpl.
  - destruct (panel w); done.
  - unfold togglePanel. destruct (panel w); [done |].
    apply (injectPanel_scheduler w).
  - unfold clickClose. destruct (panel w); done.
  - unfold onStorageRead. destruct (isPanelVisible w) as [[|]|]; try done.
    apply injectPanel_scheduler.
Qed.

Lemma panel_events_leave_scheduler_witness :
  let w := startPauseTimer (Fin 300) panelPage in
  (pauseIntervalId (step EvClickClose w) = pauseIntervalId w /\
   intervals (step EvClickClose w) = intervals w /\
   nextTimer (step EvClickClose w) = nextTimer w /\
   videos (step EvClickClose w) = videos w /\
   docVideo (step EvClickClose w) = docVideo w /\
   pauseCalls (step EvClickClose w) = pauseCalls w) /\
  panel (step EvClickClose w) = None /\
  pauseCalls (run [EvClickClose; EvSeek 7%nat (Fin 300); EvTick 1%nat] w)
    = [mkPauseCall 1%nat 7%nat (Fin 300)].
Proof.
  intros w. split; [| split; reflexivity].
  apply (panel_events_leave_scheduler EvClickClose w). reflexivity.
Defined.

(** X9.  On a page without a video the two buttons differ.  The
    percentage button does nothing at all, so an armed timer stays
    armed; the timestamp button with a text the validator accepts calls
    [startPauseTimer], which clears the armed timer, writes the missing
    video to the console and leaves the scheduler idle. *)
Theorem buttons_without_video
    (w : World) (p : Panel) (q : Q) (i : jsint) (t : number)
    (Hpanel : panel w = Some p) (Habsent : findVideo w = None)
    (Harmed : Armed t w)
    (Htext : timestampTarget (timestampInput p) = Some i)
    (Hq : (0 <= q <= 100)%Q) :
  clickPartition (Fin q) w = w /\
  Idle (clickChosenTimestamp w) /\
  console (clickChosenTimestamp w) = ErrNoVideo :: LogTimerStopped :: console w /\
  pauseCalls (clickChosenTimestamp w) = pauseCalls w.
Proof.
  split.
  - unfold clickPartition. rewrite Hpanel. simpl isNaN. rewrite orb_false_l.
    apply inside_spec in Hq. by rewrite Hq, Habsent.
  - unfold clickChosenTimestamp. rewrite Hpanel, Htext.
    rewrite startPauseTimer_absent by done.
    pose proof (Armed_slotAgrees t w Harmed) as Hs.
    destruct (stopPauseTimer_Idle w Hs) as [H1 H2].
    destruct Harmed as (id & video & Hid & _).
    split; [by split |]. split.
    + unfold stopPauseTimer. by rewrite Hid.
    + apply stopPauseTimer_frame.
Qed.

Lemma buttons_without_video_witness :
  let w := step (EvDocument None) (startPauseTimer (Fin 300) panelPage) in
  clickPartition (Fin 50) w = w /\
  Idle (clickChosenTimestamp w) /\
  console (clickChosenTimestamp w) = ErrNoVideo :: LogTimerStopped :: console w /\
  pauseCalls (clickChosenTimestamp w) = pauseCalls w.
Proof.
  intros w.
  apply (buttons_without_video w (mkPanel "10:00") 50 (IntV 600) (Fin 300)).
  - reflexivity.
  - reflexivity.
  - exists 1%nat, 7%nat. split; reflexivity.
  - reflexivity.
  - split; discriminate.
Defined.

(** X10.  The panel survives a reload and the schedule does not: when
    the panel and the stored flag agree, the script loaded again shows
    the panel exactly if it was shown before, still in agreement with
    the flag, with an empty timer slot and no timer. *)
Theorem reload_restores_visibility
    (vs : gmap nat VideoElement) (d : option nat) (w : World)
    (Hlock : inLockstep w) :
  let w' := reload vs d w in
  panelPresent w' = panelPresent w /\
  inLockstep w' /\
  Idle w' /\
  pauseCalls w' = [].
Proof.
  intros w'. unfold w', reload, onStorageRead. simpl isPanelVisible.
  unfold inLockstep in Hlock. rewrite Hlock.
  destruct (panelPresent w).
  - destruct (injectPanel_frame (initial vs d (Some true))) as (H1 & H2 & H3 & [p Hp]).
    destruct (injectPanel_scheduler (initial vs d (Some true)))
      as (_ & _ & _ & _ & _ & H4).
    unfold inLockstep, panelPresent. rewrite Hp, H3.
    split; [reflexivity |]. split; [reflexivity |].
    split; [split; [by rewrite H1 | by rewrite H2] | by rewrite H4].
  - repeat split.
Qed.

Lemma reload_restores_visibility_witness :
  let w := startPauseTimer (Fin 300) panelPage in
  let w' := reload {[ 7%nat := sampleVideo ]} (Some 7%nat) w in
  panelPresent w' = panelPresent w /\
  inLockstep w' /\
  Idle w' /\
  pauseCalls w' = [].
Proof.
  intros w.
  apply (reload_restores_visibility {[ 7%nat := sampleVideo ]} (Some 7%nat) w).
  reflexivity.
Defined.

(** X11.  A video whose duration is [NaN], its metadata not loaded yet:
    the injected panel shows "NaN:NaN", which the timestamp button
    refuses; the percentage button arms the scheduler for [NaN], and
    then no tick ever pauses. *)
Theorem unloaded_metadata
    (w : World) (video : nat) (v : VideoElement) (q : Q) (es : list event)
    (Hslot : slotAgrees w) (Hpanel : panel w = None)
    (Hdoc : findVideo w = Some video)
    (Hvideo : videos w !! video = Some v) (Hduration : duration v = NaN)
    (Hq : (0 <= q <= 100)%Q) (Hpassive : forallb passive es = true) :
  let w1 := injectPanel w in
  let w2 := clickPartition (Fin q) w1 in
  panel w1 = Some (mkPanel "NaN:NaN") /\
  clickChosenTimestamp w1 = logLine ErrInvalidTimestamp w1 /\
  Armed NaN w2 /\
  Armed NaN (run es w2) /\
  pauseCalls (run es w2) = pauseCalls w.
Proof.
  intros w1 w2.
  assert (Hp : panel w1 = Some (mkPanel "NaN:NaN")).
  { unfold w1, injectPanel. rewrite Hpanel.
    unfold attachPanelListeners, findVideo in *. simpl.
    by rewrite Hdoc, Hvideo, Hduration. }
  destruct (injectPanel_scheduler w) as (H1 & H2 & _ & H4 & H5 & H6).
  fold w1 in H1, H2, H4, H5, H6.
  assert (Hs1 : slotAgrees w1) by by eapply slotAgrees_ext.
  assert (Hw2 : w2 = startPauseTimer NaN w1).
  { unfold w2, clickPartition. rewrite Hp. simpl isNaN. rewrite orb_false_l.
    apply inside_spec in Hq. rewrite Hq.
    unfold findVideo in *. by rewrite H5, Hdoc, H4, Hvideo, Hduration. }
  assert (Ha : Armed NaN w2).
  { rewrite Hw2. eapply startPauseTimer_Armed; [done |].
    unfold findVideo in *. by rewrite H5. }
  split; [exact Hp |]. split.
  - unfold clickChosenTimestamp. by rewrite Hp.
  - destruct (passive_run_Armed_never es NaN w2 nge_NaN Hpassive Ha) as [Ha' Hc].
    split; [exact Ha |]. split; [exact Ha' |].
    by rewrite Hc, Hw2, startPauseTimer_pauseCalls.
Qed.

Lemma unloaded_metadata_witness :
  let w := initial {[ 5%nat := unloadedVideo ]} (Some 5%nat) None in
  let es := [EvPlay 5%nat; EvSeek 5%nat (Fin 1000); EvTick 1%nat] in
  let w1 := injectPanel w in
  let w2 := clickPartition (Fin 50) w1 in
  panel w1 = Some (mkPanel "NaN:NaN") /\
  clickChosenTimestamp w1 = logLine ErrInvalidTimestamp w1 /\
  Armed NaN w2 /\
  Armed NaN (run es w2) /\
  pauseCalls (run es w2) = pauseCalls w.
Proof.
  intros w es.
  apply (unloaded_metadata w 5%nat unloadedVideo 50 es);
    try reflexivity.
  split; discriminate.
Defined.

Section VideoFrames.

Implicit Types (w : World) (t : number) (e : event).

Lemma startPauseTimer_videos t w : videos (startPauseTimer t w) = videos w.
Proof.
  unfold startPauseTimer.
  destruct (stopPauseTimer_frame w) as (Hv & _).
  destruct (findVideo (stopPauseTimer w)); simpl; exact Hv.
Qed.

(** What an operation may do to a video: nothing, or pause it. *)
Lemma tick_video id w video v :
  videos w !! video = Some v ->
  exists v', videos (tick id w) !! video = Some v' /\
             currentTime v' = currentTime v /\ duration v' = duration v /\
             (paused v = true -> paused v' = true).
Proof.
  intros Hv. unfold tick.
  destruct (intervals w !! id) as [cb|]; [| by exists v].
  unfold callback.
  destruct (videos w !! cbVideo cb) as [v0|] eqn:Hv0; [| by exists v].
  destruct (nge _ _); [| by exists v].
  simpl.
  destruct (stopPauseTimer_frame
              (recordPause (mkPauseCall id (cbVideo cb) (cbTarget cb))
                 (pauseVideo (cbVideo cb) w))) as (-> & _).
  simpl. rewrite lookup_alter.
  destruct (decide (cbVideo cb = video)) as [-> | Hne].
  - rewrite Hv. simpl. eexists. split; [reflexivity |]. auto.
  - by exists v.
Qed.

End VideoFrames.

(** X12.  The script never moves playback and never resumes it: no event
    other than a seek changes the position or the duration of a video,
    and no event other than the user resuming playback takes a video out
    of the paused state. *)
Theorem script_never_seeks
    (e : event) (w : World) (video : nat) (v : VideoElement)
    (Hseek : seeks e = false) (Hvideo : videos w !! video = Some v) :
  exists v',
    videos (step e w) !! video = Some v' /\
    currentTime v' = currentTime v /\
    duration v' = duration v /\
    (resumes e = false -> paused v = true -> paused v' = true).
Proof.
  destruct e; try discriminate; simpl.
  - destruct (tick_video id w video v Hvideo) as (v' & H1 & H2 & H3 & H4).
    exists v'. auto.
  - rewrite lookup_alter. destruct (decide (video0 = video)) as [-> | Hne].
    + rewrite Hvideo. simpl. eexists. split; [reflexivity |].
      repeat split. discriminate.
    + by exists v.
  - by exists v.
  - destruct (panel w); by exists v.
  - rewrite startPauseTimer_videos. by exists v.
  - destruct (stopPauseTimer_frame w) as (-> & _). by exists v.
  - unfold togglePanel. destruct (panel w); [by exists v |]. simpl.
    destruct (injectPanel_scheduler w) as (_ & _ & _ & -> & _). by exists v.
  - unfold clickChosenTimestamp. destruct (panel w) as [p|]; [| by exists v].
    destruct (timestampTarget (timestampInput p)); [| by exists v].
    rewrite startPauseTimer_videos. by exists v.
  - unfold clickPartition. destruct (panel w); [| by exists v].
    destruct (_ || _); [by exists v |].
    destruct (findVideo w) as [video0|]; [| by exists v].
    destruct (videos w !! video0) as [v0|]; [| by exists v].
    rewrite startPauseTimer_videos. by exists v.
  - unfold clickClose. destruct (panel w); by exists v.
  - unfold onStorageRead. destruct (isPanelVisible w) as [[|]|]; try by exists v.
    destruct (injectPanel_scheduler w) as (_ & _ & _ & -> & _). by exists v.
Qed.

Lemma script_never_seeks_witness :
  let w := step (EvSeek 7%nat (Fin 61)) (startPauseTimer (Fin 60) samplePage) in
  videos (step (EvTick 1%nat) w) !! 7%nat = Some (mkVideo (Fin 61) (Fin 600) true) /\
  exists v',
    videos (step (EvTick 1%nat) w) !! 7%nat = Some v' /\
    currentTime v' = Fin 61 /\
    duration v' = Fin 600 /\
    (resumes (EvTick 1%nat) = false -> false = true -> paused v' = true).
Proof.
  intros w. split; [reflexivity |].
  apply (script_never_seeks (EvTick 1%nat) w 7%nat
           (mkVideo (Fin 61) (Fin 600) false));
    reflexivity.
Defined.

(** X13.  The percentage button never schedules past the end: for a
    video of finite duration [s >= 0] and a percentage within 0..100 the
    click arms the scheduler for the product the code computes, the
    double nearest to [s] times the double nearest to
    [percentage / 100], and that target lies between 0 and [s].  (The
    target need not be the exact product: 7 % of 600 seconds is armed as
    42.00000000000001.) *)
Theorem percentage_target_within_video
    (w : World) (p : Panel) (video : nat) (v : VideoElement) (s q : Q)
    (Hslot : slotAgrees w) (Hpanel : panel w = Some p)
    (Hdoc : findVideo w = Some video)
    (Hvideo : videos w !! video = Some v)
    (Hduration : duration v = Fin s) (Hs : (0 <= s)%Q) (Hdouble : isDouble s)
    (Hq : (0 <= q <= 100)%Q) :
  let t := roundDouble (s * roundDouble (q / 100)) in
  Armed (Fin t) (clickPartition (Fin q) w) /\
  (0 <= t <= s)%Q /\
  pauseCalls (clickPartition (Fin q) w) = pauseCalls w.
Proof.
  intros t.
  assert (Hc : clickPartition (Fin q) w = startPauseTimer (Fin t) w).
  { unfold clickPartition. rewrite Hpanel. simpl isNaN. rewrite orb_false_l.
    apply inside_spec in Hq. rewrite Hq, Hdoc, Hvideo, Hduration.
    change (fdiv (Fin q) (Fin 100)) with (Fin (roundDouble (q / 100))).
    reflexivity. }
  rewrite Hc. split; [by eapply startPauseTimer_Armed |].
  split; [| apply startPauseTimer_pauseCalls].
  destruct (percentage_product_bounds s q Hs Hq) as [H0 H1]. fold t in H0, H1.
  unfold isDouble in Hdouble. split; lra.
Qed.

Lemma percentage_target_within_video_witness :
  let t := roundDouble (600 * roundDouble (7 / 100)) in
  Armed (Fin t) (clickPartition (Fin 7) panelPage) /\
  (0 <= t <= 600)%Q /\
  pauseCalls (clickPartition (Fin 7) panelPage) = pauseCalls panelPage /\
  t = (5910974510923777 # 140737488355328)%Q.
Proof.
  intros t.
  destruct (percentage_target_within_video panelPage (mkPanel "10:00") 7%nat
              sampleVideo 600 7) as (H1 & H2 & H3);
    [ reflexivity | reflexivity | reflexivity | reflexivity | reflexivity
    | discriminate | unfold isDouble; vm_compute; reflexivity
    | split; discriminate | ].
  split; [exact H1 |]. split; [exact H2 |]. split; [exact H3 |].
  vm_compute. reflexivity.
Defined.

(* ===================================================================== *)
(** ** The popup *)
(* ===================================================================== *)

Section Popup.

Implicit Types (tabs : list Tab) (pages : gmap nat World) (w : World).

Lemma prefix_app (a b : string) :
  String.prefix a b = true <-> exists rest, b = (a ++ rest)%string.
Proof.
  revert b. induction a as [| c a IH]; intros b.
  - split; [intros _; by exists b | intros _; by destruct b].
  - destruct b as [| c' b]; simpl; [split; [discriminate | intros [rest [=]]] |].
    destruct (ascii_dec c c') as [-> | Hne].
    + rewrite IH. split; intros [rest H]; exists rest.
      * by rewrite H.
      * change (String c' b = String c' (a ++ rest)%string) in H. congruence.
    + split; [discriminate |]. intros [rest H].
      change (String c' b = String c (a ++ rest)%string) in H. congruence.
Qed.

Lemma togglePanel_twice w :
  panelPresent (togglePanel (togglePanel w)) = panelPresent w.
Proof.
  destruct (togglePanel_flips (togglePanel w)) as [-> _].
  destruct (togglePanel_flips w) as [-> _].
  apply negb_involutive.
Qed.

Lemma withStorage_own w : withStorage (isPanelVisible w) w = w.
Proof. by destruct w. Qed.

Lemma popupOpened_delivered (tab : Tab) (rest : list Tab) pages w0 :
  String.prefix youtubePrefix (tabUrl tab) = true ->
  pages !! tabId tab = Some w0 ->
  popupOpened (tab :: rest) pages
  = withStorage (isPanelVisible (togglePanel w0))
      <$> <[tabId tab := togglePanel w0]> pages.
Proof.
  intros Hurl Hw0. unfold popupOpened, sendMessageToContentScript.
  by rewrite Hurl, Hw0.
Qed.

Lemma popupOpened_self (tab : Tab) (rest : list Tab) pages w0 :
  String.prefix youtubePrefix (tabUrl tab) = true ->
  pages !! tabId tab = Some w0 ->
  popupOpened (tab :: rest) pages !! tabId tab = Some (togglePanel w0).
Proof.
  intros Hurl Hw0. rewrite (popupOpened_delivered tab rest pages w0 Hurl Hw0).
  rewrite lookup_fmap, lookup_insert_eq. simpl. by rewrite withStorage_own.
Qed.

Lemma popupOpened_other (tab : Tab) (rest : list Tab) pages w0 (id : nat) w :
  String.prefix youtubePrefix (tabUrl tab) = true ->
  pages !! tabId tab = Some w0 ->
  tabId tab <> id -> pages !! id = Some w ->
  popupOpened (tab :: rest) pages !! id
  = Some (withStorage (isPanelVisible (togglePanel w0)) w).
Proof.
  intros Hurl Hw0 Hne Hw. rewrite (popupOpened_delivered tab rest pages w0 Hurl Hw0).
  rewrite lookup_fmap, lookup_insert_ne by done. by rewrite Hw.
Qed.

Lemma popupOpened_flag (tab : Tab) (rest : list Tab) pages w0 (i : nat) wi :
  String.prefix youtubePrefix (tabUrl tab) = true ->
  pages !! tabId tab = Some w0 ->
  popupOpened (tab :: rest) pages !! i = Some wi ->
  isPanelVisible wi = isPanelVisible (togglePanel w0).
Proof.
  intros Hurl Hw0. rewrite (popupOpened_delivered tab rest pages w0 Hurl Hw0).
  rewrite lookup_fmap. destruct (_ !! i) as [w'|]; [| done].
  by intros [= <-].
Qed.

End Popup.

(** X14.  Opening the popup toggles the panel of one page at most: the
    page of the first tab the query answers with, when its URL is
    [https://www.youtube.com/] followed by some path; after the toggle
    that page's panel and the stored flag agree.  Any other page keeps
    its panel, its scheduler and its videos, and, the store being shared
    by the whole extension, finds there the flag the toggled page wrote:
    after a delivery all pages hold one flag.  Opening the popup a
    second time brings the presence of every panel back to what it
    was. *)
Theorem popup_toggles_youtube_tab
    (tabs : list Tab) (pages : gmap nat World) (id : nat) (w : World)
    (Hpage : pages !! id = Some w) :
  let pages' := popupOpened tabs pages in
  (pages' = pages \/
   exists tab rest path w0,
     tabs = tab :: rest /\
     tabUrl tab = (youtubePrefix ++ path)%string /\
     pages !! tabId tab = Some w0 /\
     (forall i wi, pages' !! i = Some wi ->
                   isPanelVisible wi = isPanelVisible (togglePanel w0)) /\
     ((tabId tab = id /\ pages' !! id = Some (togglePanel w) /\
       inLockstep (togglePanel w)) \/
      (tabId tab <> id /\
       pages' !! id = Some (withStorage (isPanelVisible (togglePanel w0)) w)))) /\
  (forall tab rest,
      tabs = tab :: rest -> tabId tab = id ->
      String.prefix youtubePrefix (tabUrl tab) = true ->
      pages' !! id = Some (togglePanel w)) /\
  exists w2, popupOpened tabs pages' !! id = Some w2 /\
             panelPresent w2 = panelPresent w.
Proof.
  intros pages'. unfold pages'.
  destruct tabs as [| tab rest].
  { split; [by left |]. split; [discriminate |]. by exists w. }
  destruct (String.prefix youtubePrefix (tabUrl tab)) eqn:Hurl; cycle 1.
  { assert (Hsame : forall ps, popupOpened (tab :: rest) ps = ps).
    { intros ps. unfold popupOpened, sendMessageToContentScript.
      by rewrite Hurl. }
    rewrite !Hsame. split; [by left |]. split.
    - intros tab' rest' [= <- <-] _ H. congruence.
    - by exists w. }
  destruct (pages !! tabId tab) as [w0|] eqn:Hw0; cycle 1.
  { assert (Hsame : popupOpened (tab :: rest) pages = pages).
    { unfold popupOpened, sendMessageToContentScript. by rewrite Hurl, Hw0. }
    rewrite !Hsame. split; [by left |]. split.
    - intros tab' rest' [= <- <-] Hid _. congruence.
    - by exists w. }
  destruct (decide (tabId tab = id)) as [Hid | Hne].
  - assert (w0 = w) as -> by congruence.
    pose proof (popupOpened_self tab rest pages w Hurl Hw0) as Hself.
    split; [| split].
    + right. destruct (proj1 (prefix_app _ _) Hurl) as [path Hpath].
      exists tab, rest, path, w.
      split; [done |]. split; [done |]. split; [done |].
      split; [intros i wi; by apply (popupOpened_flag tab rest) |].
      left. rewrite <- Hid. split; [done |]. split; [done |].
      apply togglePanel_inLockstep.
    + intros tab' rest' [= <- <-] _ _. by rewrite <- Hid.
    + exists (togglePanel (togglePanel w)).
      split; [| apply togglePanel_twice].
      rewrite <- Hid. by apply popupOpened_self.
  - pose proof (popupOpened_other tab rest pages w0 id w Hurl Hw0 Hne Hpage)
      as Hother.
    pose proof (popupOpened_self tab rest pages w0 Hurl Hw0) as Hself.
    split; [| split].
    + right. destruct (proj1 (prefix_app _ _) Hurl) as [path Hpath].
      exists tab, rest, path, w0.
      split; [done |]. split; [done |]. split; [done |].
      split; [intros i wi; by apply (popupOpened_flag tab rest) |]. by right.
    + intros tab' rest' [= <- <-] Hid. done.
    + eexists. split.
      * exact (popupOpened_other tab rest _ (togglePanel w0) id _ Hurl Hself Hne
                 Hother).
      * reflexivity.
Qed.

Lemma popup_toggles_youtube_tab_witness :
  let tabs := [mkTab 4 "https://www.youtube.com/watch?v=abc"] in
  let pages : gmap nat World := {[ 4%nat := samplePage; 9%nat := panelPage ]} in
  popupOpened tabs pages !! 4%nat = Some (togglePanel samplePage) /\
  (isPanelVisible <$> popupOpened tabs pages !! 9%nat) = Some (Some true) /\
  (panelPresent <$> popupOpened tabs pages !! 9%nat) = Some true /\
  exists w2, popupOpened tabs (popupOpened tabs pages) !! 4%nat = Some w2 /\
             panelPresent w2 = panelPresent samplePage.
Proof.
  intros tabs pages.
  destruct (popup_toggles_youtube_tab tabs pages 4%nat samplePage)
    as (_ & H2 & H3); [reflexivity |].
  split; [| split; [reflexivity | split; [reflexivity | exact H3]]].
  apply (H2 (mkTab 4 "https://www.youtube.com/watch?v=abc") []); reflexivity.
Defined.
